(** * Secret rotation handler (src/secretsmanagerLambda.js)

    A shallow embedding of the four-step rotation handler.  The handler is
    an async JavaScript function that talks to three outside services (the
    Secrets Manager client, the RDS client and the mysql driver) and to the
    project's logger.  Each function of the source becomes a program of
    type [Prog]: a finite tree whose nodes are the calls the source awaits
    and whose leaves are a returned value or a thrown error.  A program is
    run against an environment [Env W], which answers every call and
    threads the state [W] of the outside world. *)

From Stdlib Require Import String Ascii List Bool ZArith Lia.
Import ListNotations.
Local Open Scope string_scope.
Local Open Scope list_scope.

(** ** JavaScript values *)

(** *** Numbers

    [JSON.parse] reads a number into a binary64 value, rounding to the
    nearest one (ties to even) and overflowing to an infinity;
    [JSON.stringify] prints a finite number with the fewest digits that
    read back as the same value, and an infinity as [null]. *)

Local Open Scope Z_scope.

(** A number of a JSON text, up to its notation: the decimal the text
    spells, plus or minus digits * 10 ^ exponent10.  The digits do not
    end in 0 unless the number is 0: 100, 1e2 and 100.0 all have digits 1
    and exponent 2. *)
Record literal : Type := {
  minus : bool;
  digits : Z;
  exponent10 : Z }.

(** A number [JSON.parse] can return: plus or minus
    mantissa * 2 ^ exponent2, with an odd mantissa or zero, or an
    infinity. *)
Inductive number : Type :=
| Finite (negative : bool) (mantissa : Z) (exponent2 : Z)
| Infinite (negative : bool).

Fixpoint strip2 (p : positive) (e : Z) : Z * Z :=
  match p with
  | xO p' => strip2 p' (e + 1)
  | _ => (Zpos p, e)
  end.

Definition finite (negative : bool) (m e : Z) : number :=
  match m with
  | Zpos p => let (m', e') := strip2 p e in Finite negative m' e'
  | _ => Finite negative 0 0
  end.

(** a / b rounded to the nearest integer, ties to even (a >= 0, b > 0). *)
Definition round_half_even (a b : Z) : Z :=
  let q := a / b in
  let r := a mod b in
  if (b <? 2 * r) || ((b =? 2 * r) && Z.odd q) then q + 1 else q.

(** a / b < base ^ n (a >= 0, b > 0). *)
Definition below (base a b n : Z) : bool :=
  if 0 <=? n then a <? b * base ^ n else a * base ^ (- n) <? b.

(** The binary64 value nearest to a / b (a > 0, b > 0): 53 bits of
    mantissa, exponents from -1074 to 971, an infinity beyond. *)
Definition nearest (negative : bool) (a b : Z) : number :=
  let l := Z.log2 a - Z.log2 b in
  let p := if below 2 a b l then l - 1 else l in
  let e := Z.max (p - 52) (-1074) in
  let m := if 0 <=? e then round_half_even a (b * 2 ^ e)
           else round_half_even (a * 2 ^ (- e)) b in
  let (m, e) := if m =? 2 ^ 53 then (2 ^ 52, e + 1) else (m, e) in
  if 971 <? e then Infinite negative else finite negative m e.

(** An upper bound of the number of decimal digits of d > 0. *)
Definition size10 (d : Z) : Z := Z.log2 d / 3 + 1.

(** What [JSON.parse] makes of a number.  (The two tests on the exponent
    only cut the computation short: beyond 10 ^ 310 every value
    overflows, below 10 ^ -330 every value rounds to zero.) *)
Definition to_number (l : literal) : number :=
  if digits l <=? 0 then Finite (minus l) 0 0
  else if 310 <? exponent10 l then Infinite (minus l)
  else if exponent10 l + size10 (digits l) <? -330 then Finite (minus l) 0 0
  else if 0 <=? exponent10 l
       then nearest (minus l) (digits l * 10 ^ exponent10 l) 1
       else nearest (minus l) (digits l) (10 ^ (- exponent10 l)).

Fixpoint strip10 (fuel : nat) (d e : Z) : Z * Z :=
  match fuel with
  | O => (d, e)
  | S fuel' =>
      if (0 <? d) && (d mod 10 =? 0) then strip10 fuel' (d / 10) (e + 1)
      else (d, e)
  end.

(** The spelling without trailing zeros among the digits. *)
Definition spelled (negative : bool) (d e : Z) : literal :=
  if d <=? 0 then {| minus := negative; digits := 0; exponent10 := 0 |}
  else
    let (d', e') := strip10 (Z.to_nat (Z.log2 d) + 1) d e in
    {| minus := negative; digits := d'; exponent10 := e' |}.

(** The least n' >= n with a / b < 10 ^ n'. *)
Fixpoint magnitude (fuel : nat) (a b n : Z) : Z :=
  match fuel with
  | O => n
  | S fuel' => if below 10 a b n then n else magnitude fuel' a b (n + 1)
  end.

Definition number_eqb (x y : number) : bool :=
  match x, y with
  | Finite s m e, Finite s' m' e' => Bool.eqb s s' && (m =? m') && (e =? e')
  | Infinite s, Infinite s' => Bool.eqb s s'
  | _, _ => false
  end.

Definition literal_eqb (x y : literal) : bool :=
  Bool.eqb (minus x) (minus y) && (digits x =? digits y)
  && (exponent10 x =? exponent10 y).

(** Number::toString for x = a / b with 10 ^ (n - 1) <= x < 10 ^ n: the
    fewest digits k, from the given k on, such that digits * 10 ^ (n - k)
    reads back as x; of two candidates the one nearer to x. *)
Fixpoint shortest (fuel : nat) (x : number) (a b n k : Z) : literal :=
  let num := if 0 <=? k - n then a * 10 ^ (k - n) else a in
  let den := if 0 <=? k - n then b else b * 10 ^ (n - k) in
  let lo := num / den in
  let r := num mod den in
  let hi := lo + 1 in
  let reads s :=
    number_eqb
      (to_number {| minus := false; digits := s; exponent10 := n - k |}) x in
  match fuel with
  | O => spelled false lo (n - k)
  | S fuel' =>
      match reads lo, reads hi with
      | true, true =>
          if (2 * r <? den) || ((2 * r =? den) && Z.even lo)
          then spelled false lo (n - k) else spelled false hi (n - k)
      | true, false => spelled false lo (n - k)
      | false, true => spelled false hi (n - k)
      | false, false => shortest fuel' x a b n (k + 1)
      end
  end.

(** What [JSON.stringify] prints for a number; [None] is the text
    [null], printed for an infinity.  Minus zero is printed as 0. *)
Definition to_literal (x : number) : option literal :=
  match x with
  | Infinite _ => None
  | Finite s m e =>
      if m <=? 0 then Some (spelled false 0 0)
      else
        let a := if 0 <=? e then m * 2 ^ e else m in
        let b := if 0 <=? e then 1 else 2 ^ (- e) in
        let n0 := ((Z.log2 a - Z.log2 b) * 30103) / 100000 - 1 in
        let n := magnitude 4 a b n0 in
        let l := shortest 17 (Finite false m e) a b n 1 in
        Some {| minus := s; digits := digits l; exponent10 := exponent10 l |}
  end.

(** An integer as a JSON text and as a JavaScript number literal. *)
Definition literal_of_Z (z : Z) : literal := spelled (z <? 0) (Z.abs z) 0.

Definition number_of_Z (z : Z) : number := to_number (literal_of_Z z).

Coercion literal_of_Z : Z >-> literal.
Coercion number_of_Z : Z >-> number.
Bind Scope Z_scope with literal number.

Local Close Scope Z_scope.

(** *** Values and texts *)

(** What [JSON.parse] can return.  The proofs only ever take a value apart
    by cases, so no induction scheme is generated for this nested type. *)
#[local] Unset Elimination Schemes.
Inductive json : Type :=
| JNull
| JBool (b : bool)
| JNum (n : number)
| JStr (s : string)
| JArr (items : list json)
| JObj (fields : list (string * json)).

(** A JSON text, up to white space, the spelling of its strings and the
    notation of its numbers: the tree of the text, with the members of an
    object in the order of the text and the numbers as the decimals the
    text spells. *)
Inductive document : Type :=
| DNull
| DBool (b : bool)
| DNum (n : literal)
| DStr (s : string)
| DArr (items : list document)
| DObj (fields : list (string * document)).
#[local] Set Elimination Schemes.

(** A JavaScript value read from a parsed object: [None] is [undefined]. *)
Definition JsValue : Type := option json.

(** *** Objects

    The own properties of an object are listed in the order in which
    JavaScript enumerates them: the keys that are array indices first, in
    ascending order, then the other keys in the order of their creation. *)

Fixpoint lookup {V : Type} (k : string) (l : list (string * V)) : option V :=
  match l with
  | [] => None
  | (k', v) :: l' => if String.eqb k' k then Some v else lookup k l'
  end.

(** The last binding of a key, the one [JSON.parse] keeps when an object
    text repeats a key. *)
Fixpoint lookup_last {V : Type} (k : string) (l : list (string * V))
  : option V :=
  match l with
  | [] => None
  | (k', v) :: l' =>
      match lookup_last k l' with
      | Some v' => Some v'
      | None => if String.eqb k' k then Some v else None
      end
  end.

Definition digit (c : ascii) : option N :=
  let n := N_of_ascii c in
  if (48 <=? n)%N && (n <=? 57)%N then Some (n - 48)%N else None.

Fixpoint decimal (s : string) (acc : N) : option N :=
  match s with
  | EmptyString => Some acc
  | String c s' =>
      match digit c with
      | Some d => decimal s' (10 * acc + d)%N
      | None => None
      end
  end.

(** A key that is an array index: the decimal spelling, without leading
    zeros, of an integer below 2 ^ 32 - 1. *)
Definition array_index (k : string) : option N :=
  match k with
  | EmptyString => None
  | String "0" EmptyString => Some 0%N
  | String "0" _ => None
  | _ => match decimal k 0 with
         | Some n => if (n <? 4294967295)%N then Some n else None
         | None => None
         end
  end.

(** A new key [k] is enumerated before the key [k']. *)
Definition precedes (k k' : string) : bool :=
  match array_index k, array_index k' with
  | Some i, Some i' => (i <? i')%N
  | Some _, None => true
  | None, _ => false
  end.

Definition overwrite (k : string) (v : json) (l : list (string * json))
  : list (string * json) :=
  map (fun kv : string * json =>
         let (k', v') := kv in if String.eqb k' k then (k', v) else (k', v'))
    l.

Fixpoint insert (k : string) (v : json) (l : list (string * json))
  : list (string * json) :=
  match l with
  | [] => [(k, v)]
  | (k', v') :: l' =>
      if precedes k k' then (k, v) :: l else (k', v') :: insert k v l'
  end.

(** Setting a property: an existing key keeps its place and takes the
    value; a new key is created, after the keys it does not precede. *)
Definition set_field (k : string) (v : json) (l : list (string * json))
  : list (string * json) :=
  match lookup k l with
  | Some _ => overwrite k v l
  | None => insert k v l
  end.

(** The value [JSON.parse] builds from a text: the members of an object
    are set one after the other, so that of two members with the same key
    the second one stays, at the place of the first. *)
Fixpoint read (d : document) : json :=
  match d with
  | DNull => JNull
  | DBool b => JBool b
  | DNum n => JNum (to_number n)
  | DStr s => JStr s
  | DArr items => JArr (map read items)
  | DObj fields =>
      JObj (fold_left (fun acc (kv : string * document) =>
                         let (k, v) := kv in set_field k (read v) acc)
              fields [])
  end.

(** The own properties [JSON.parse] sets for the members of an object,
    added to those of [l]. *)
Definition properties (fields : list (string * document))
    (l : list (string * json)) : list (string * json) :=
  fold_left (fun acc (kv : string * document) =>
               let (k, v) := kv in set_field k (read v) acc) fields l.

(** The text [JSON.stringify] prints for a value built by [JSON.parse] or
    by the assignment of a string to a property. *)
Fixpoint print (j : json) : document :=
  match j with
  | JNull => DNull
  | JBool b => DBool b
  | JNum n => match to_literal n with
              | Some l => DNum l
              | None => DNull
              end
  | JStr s => DStr s
  | JArr items => DArr (map print items)
  | JObj fields =>
      DObj (map (fun kv : string * json =>
                   let (k, v) := kv in (k, print v)) fields)
  end.

(** The text of a secret: [Stringified d] is a text with tree [d],
    [Unparsable s] a text that makes [JSON.parse] throw. *)
Inductive text : Type :=
| Stringified (d : document)
| Unparsable (s : string).

Inductive Error : Type :=
| SyntaxError
| TypeError
| ServiceError (code : string).

Inductive Outcome (A : Type) : Type :=
| Resolved (a : A)
| Rejected (e : Error).
Arguments Resolved {A} a.
Arguments Rejected {A} e.

(** ** The calls the handler awaits, and their responses *)

Record GetSecretValueResponse : Type := {
  SecretString : option text;
  VersionId : string;
  VersionStages : list string }.

Record DescribeSecretResponse : Type := {
  VersionIdsToStages : option (list (string * list string)) }.

Record GetRandomPasswordResponse : Type := {
  RandomPassword : string }.

Record PutSecretValueResponse : Type := {
  put_VersionId : string;
  put_VersionStages : list string }.

Inductive Connection : Type := Connected.

Inductive Call : Type :=
| GetSecretValue (secret_id : string) (version_id : option string)
| DescribeSecret (secret_id : string)
| GetRandomPassword (exclude_characters : string)
| PutSecretValue (secret_id client_request_token : string)
    (secret_string : text) (version_stages : list string)
| UpdateSecretVersionStage (secret_id version_stage move_to : string)
    (remove_from : option string)
| ModifyDBCluster (cluster : string) (apply_immediately : bool)
    (master_user_password : JsValue)
| CreateConnection (host user password port : JsValue) (connect_timeout : Z).

Definition Resp (c : Call) : Type :=
  match c with
  | GetSecretValue _ _ => GetSecretValueResponse
  | DescribeSecret _ => DescribeSecretResponse
  | GetRandomPassword _ => GetRandomPasswordResponse
  | PutSecretValue _ _ _ _ => PutSecretValueResponse
  | UpdateSecretVersionStage _ _ _ _ => unit
  | ModifyDBCluster _ _ _ => unit
  | CreateConnection _ _ _ _ _ => Connection
  end.

(** The rotation request: the Lambda event. *)
Record Event : Type := {
  Step : JsValue;
  ClientRequestToken : string;
  SecretId : string }.

(** What the source passes to [logger.log] after the tag. *)
Inductive LogArg : Type :=
| LText (s : string)
| LValue (v : JsValue)
| LEvent (e : Event)
| LSecretValue (r : GetSecretValueResponse)
| LSecretString (s : option text)
| LNewSecretString (s : text)
| LDescribe (r : DescribeSecretResponse)
| LStages (s : option (list (string * list string)))
| LVersion (v : option string)
| LData (u : unit)
| LError (e : Error).

(** ** Programs *)

(** Modelled from the spec: [./modules/log] is not under src/; the spec
    counts logging among the thin outside collaborators, so [logger.log]
    is a node that records its arguments and always returns. *)
Inductive Prog (A : Type) : Type :=
| Ret (a : A)
| Throw (e : Error)
| Log (tag : string) (args : list LogArg) (k : Prog A)
| Vis (c : Call) (k : Outcome (Resp c) -> Prog A).
Arguments Ret {A} a.
Arguments Throw {A} e.
Arguments Log {A} tag args k.
Arguments Vis {A} c k.

Fixpoint bind {A B : Type} (p : Prog A) (f : A -> Prog B) : Prog B :=
  match p with
  | Ret a => f a
  | Throw e => Throw e
  | Log tag args k => Log tag args (bind k f)
  | Vis c k => Vis c (fun o => bind (k o) f)
  end.

(** [try { p } catch (err) { h err }] *)
Fixpoint try_catch {A : Type} (p : Prog A) (h : Error -> Prog A) : Prog A :=
  match p with
  | Ret a => Ret a
  | Throw e => h e
  | Log tag args k => Log tag args (try_catch k h)
  | Vis c k => Vis c (fun o => try_catch (k o) h)
  end.

(** [await c.promise()]: a rejected promise throws at the [await]. *)
Definition await (c : Call) : Prog (Resp c) :=
  Vis c (fun o => match o with
                  | Resolved r => Ret r
                  | Rejected e => Throw e
                  end).

Definition log (tag : string) (args : list LogArg) : Prog unit :=
  Log tag args (Ret tt).

Declare Scope prog_scope.
Delimit Scope prog_scope with prog.
Notation "x <- p ;; k" := (bind p (fun x => k))
  (at level 61, p at next level, right associativity) : prog_scope.
Notation "p ;; k" := (bind p (fun _ => k))
  (at level 61, right associativity) : prog_scope.
Local Open Scope prog_scope.

(** ** Running a program *)

Definition Env (W : Type) : Type := forall c : Call, W -> W * Outcome (Resp c).

Definition fulfilled_by {A : Type} (o : Outcome A) : bool :=
  match o with
  | Resolved _ => true
  | Rejected _ => false
  end.

(** One call of a run: what was asked, whether the promise was fulfilled,
    and the world the call left behind. *)
Record Made (W : Type) : Type := {
  call : Call;
  fulfilled : bool;
  after : W }.
Arguments call {W} m.
Arguments fulfilled {W} m.
Arguments after {W} m.

(** The outcome of a run: the final world, the calls in the order they
    were made, the log, and the result. *)
Record Run (W A : Type) : Type := {
  world : W;
  calls : list (Made W);
  logs : list (string * list LogArg);
  result : Outcome A }.
Arguments world {W A} r.
Arguments calls {W A} r.
Arguments logs {W A} r.
Arguments result {W A} r.

Fixpoint run {W A : Type} (env : Env W) (p : Prog A) (w : W) : Run W A :=
  match p with
  | Ret a => {| world := w; calls := []; logs := []; result := Resolved a |}
  | Throw e => {| world := w; calls := []; logs := []; result := Rejected e |}
  | Log tag args k =>
      let r := run env k w in
      {| world := world r; calls := calls r;
         logs := (tag, args) :: logs r; result := result r |}
  | Vis c k =>
      let (w', o) := env c w in
      let r := run env (k o) w' in
      {| world := world r;
         calls := {| call := c; fulfilled := fulfilled_by o; after := w' |}
                  :: calls r;
         logs := logs r; result := result r |}
  end.

(** ** Sloppy-mode JavaScript primitives used by the source *)

(** [JSON.parse s]; [JSON.parse(undefined)] throws a SyntaxError. *)
Definition JSON_parse (s : option text) : Prog json :=
  match s with
  | Some (Stringified d) => Ret (read d)
  | Some (Unparsable _) => Throw SyntaxError
  | None => Throw SyntaxError
  end.

Definition JSON_stringify (j : json) : text := Stringified (print j).

(** [o.k]: a TypeError on [null], [undefined] where [o] has no such
    property. *)
Definition prop (o : json) (k : string) : JsValue :=
  match o with
  | JObj fields => lookup k fields
  | _ => None
  end.

Definition get_prop (o : json) (k : string) : Prog JsValue :=
  match o with
  | JNull => Throw TypeError
  | _ => Ret (prop o k)
  end.

(** [o.k = v]: a TypeError on [null]; silently dropped on a primitive (the
    file is not in strict mode); on an array the property is set but
    [JSON.stringify] does not print it. *)
Definition assign (o : json) (k : string) (v : json) : json :=
  match o with
  | JObj fields => JObj (set_field k v fields)
  | _ => o
  end.

Definition set_prop (o : json) (k : string) (v : json) : Prog json :=
  match o with
  | JNull => Throw TypeError
  | _ => Ret (assign o k v)
  end.

(** [v === s] for a string literal [s]. *)
Definition strict_eq (v : JsValue) (s : string) : bool :=
  match v with
  | Some (JStr s') => String.eqb s' s
  | _ => false
  end.

(** [value[0] === s] for an array of strings. *)
Definition first_is (value : list string) (s : string) : bool :=
  match value with
  | [] => false
  | x :: _ => String.eqb x s
  end.

Definition double_quote : string := String (ascii_of_nat 34) EmptyString.

(** The characters line 86 excludes from the generated password: slash,
    at sign, double quote, single quote, backslash. *)
Definition excluded : string := "/@" ++ double_quote ++ "'\".

(** ** The handler *)

Record Config : Type := { secretsmanager_name : string }.

Section Handler.

(** [./modules/config] is not under src/: its one field the source reads,
    [config.secretsmanager.name], is a parameter. *)
Variable config : Config.

(** src/secretsmanagerLambda.js, lines 60-105. *)
Definition createSecret (token : string)
  : Prog (option PutSecretValueResponse) :=
  log "info:createSecret:init" [] ;;
  let secretName := secretsmanager_name config in
  currentSecretValue <- await (GetSecretValue secretName None) ;;
  log "info:createSecret:currentSecretValue"
      [LSecretValue currentSecretValue] ;;
  let secretString := SecretString currentSecretValue in
  log "info:createSecret:secretString:" [LSecretString secretString] ;;
  secretStringObject <- JSON_parse secretString ;;
  password <- get_prop secretStringObject "password" ;;
  log "info:createSecret:password: " [LValue password] ;;
  describesecret <- await (DescribeSecret secretName) ;;
  log "info:createSecret:describesecret: " [LDescribe describesecret] ;;
  try_catch
    (gettingSecret <- await (GetSecretValue secretName (Some token)) ;;
     log "info:createSecret:AWSPENDING secret: " [LSecretValue gettingSecret] ;;
     log "info:createSecret:"
         [LText "Successfully retrieved secret for AWSPENDING"] ;;
     Ret (None : option PutSecretValueResponse))
    (fun err =>
     createRandomPassword <-
       await (GetRandomPassword excluded) ;;
     let randomPassword := RandomPassword createRandomPassword in
     log "info:Random Password: " [LText randomPassword] ;;
     secretStringObject' <-
       set_prop secretStringObject "password" (JStr randomPassword) ;;
     let newSecretString := JSON_stringify secretStringObject' in
     log "info:createSecret:newSecretString: "
         [LNewSecretString newSecretString] ;;
     try_catch
       (log "info:createSecret"
            [LText "Starting to add secret for ARN and version."] ;;
        r <- await (PutSecretValue secretName token newSecretString
                      ["AWSPENDING"]) ;;
        Ret (Some (r : PutSecretValueResponse)))
       (fun err' =>
        log "error:createSecret"
            [LText "ERROR in put secret for ARN and version."; LError err'] ;;
        Ret None)).

(** src/secretsmanagerLambda.js, lines 112-151. *)
Definition setSecret (token : string) : Prog unit :=
  gettingSecret <-
    await (GetSecretValue (secretsmanager_name config) (Some token)) ;;
  log "info:setSecret:WHTSECRETinAWSPENDING: " [LSecretValue gettingSecret] ;;
  let secretString := SecretString gettingSecret in
  secretStringObject <- JSON_parse secretString ;;
  newPassword <- get_prop secretStringObject "password" ;;
  log "info:setSecret:password: " [LValue newPassword] ;;
  try_catch
    (data <- await (ModifyDBCluster "phat-cluster" true newPassword) ;;
     log "info:RDS" [LText "Successfully modified password for RDS"] ;;
     log "info:RDS" [LData data])
    (fun err =>
     log "error:modifyDBCluster"
         [LText "ERROR in modify password in RDS."; LError err]) ;;
  try_catch
    (_ <- await (CreateConnection
                   (Some (JStr
                      "phat-cluster.cluster-cbimfz1gncny.us-east-1.rds.amazonaws.com"))
                   (Some (JStr "phat1234"))
                   newPassword
                   (Some (JNum 3306))
                   5) ;;
     Ret tt)
    (fun err =>
     log "error:testingSecret"
         [LText "Error in connecting to database"; LError err]).

(** src/secretsmanagerLambda.js, lines 158-173.  [None] is the [null] the
    source returns from its catch block. *)
Definition getConnection (secretStingObject : json)
  : Prog (option Connection) :=
  log "info:getConnection" [LText "Creating Connection to Database"] ;;
  try_catch
    (host <- get_prop secretStingObject "host" ;;
     user <- get_prop secretStingObject "username" ;;
     password <- get_prop secretStingObject "password" ;;
     port <- get_prop secretStingObject "port" ;;
     c <- await (CreateConnection host user password port 5) ;;
     Ret (Some (c : Connection)))
    (fun err =>
     log "error:getConnection"
         [LText "Error in connecting to database"; LError err] ;;
     Ret None).

(** src/secretsmanagerLambda.js, lines 180-194.  Line 190 calls
    [getConnection] without [await] and drops the promise: whatever the
    connection attempt yields, and whenever it settles, nothing of it
    reaches [testSecret]. *)
Definition testSecret (token : string) : Prog unit :=
  try_catch
    (testPendingSecret <-
       await (GetSecretValue (secretsmanager_name config) (Some token)) ;;
     log "info:testSecret:AWSPENDING Secret: "
         [LSecretValue testPendingSecret] ;;
     let secretString := SecretString testPendingSecret in
     log "info:testSecret:secretString:" [LSecretString secretString] ;;
     secretStringObject <- JSON_parse secretString ;;
     _ <- getConnection secretStringObject ;;
     Ret tt)
    (fun err =>
     log "error:testSecret"
         [LText "Error in connecting to secretsManger"; LError err]).

(** The loop of lines 208-213: the last version whose first stage is
    AWSCURRENT, [None] ([undefined]) when there is none. *)
Definition curretVersion_of (allVersion : list (string * list string))
  : option string :=
  fold_left
    (fun curretVersion entry =>
       if first_is (snd entry) "AWSCURRENT" then Some (fst entry)
       else curretVersion)
    allVersion None.

(** src/secretsmanagerLambda.js, lines 201-226.  [Object.entries] of an
    absent VersionIdsToStages throws a TypeError; an [undefined]
    RemoveFromVersionId is a parameter left out of the request. *)
Definition finishSecret (token : string) : Prog unit :=
  metadata <- await (DescribeSecret (secretsmanager_name config)) ;;
  let allVersion := VersionIdsToStages metadata in
  log "info:finishSecret:AllVersion: " [LStages allVersion] ;;
  entries <- match allVersion with
             | Some entries => Ret entries
             | None => Throw TypeError
             end ;;
  let curretVersion := curretVersion_of entries in
  log "info:finishSecret:curretVersion " [LVersion curretVersion] ;;
  _ <- await (UpdateSecretVersionStage (secretsmanager_name config)
                "AWSCURRENT" token curretVersion) ;;
  log "info:finishSecret"
      [LText "Successfully set AWSCURRENT stage to version for secret."] ;;
  describesecret <- await (DescribeSecret (secretsmanager_name config)) ;;
  log "info:finishSecret:describesecret: " [LDescribe describesecret].

(** src/secretsmanagerLambda.js, lines 18-52.  Building the Secrets
    Manager client (lines 20-27) makes no call. *)
Definition handler (event : Event) : Prog unit :=
  log "info:handler:init" [LEvent event] ;;
  let step := Step event in
  log "info:handler:step" [LValue step] ;;
  let token := ClientRequestToken event in
  log "info:handler:token" [LText token] ;;
  let arn := SecretId event in
  if strict_eq step "createSecret" then
    successResponse <- createSecret token ;; Ret tt
  else if strict_eq step "setSecret" then
    successInChangeRDSpassword <- setSecret token ;; Ret tt
  else if strict_eq step "testSecret" then
    testSecret token
  else if strict_eq step "finishSecret" then
    finishSecret token
  else Ret tt.

End Handler.

(** ** A reference world

    The services themselves are not part of the repository.  For the
    statements that depend on what the services do, the store below is
    modelled from the spec, sections 3 and 6, with the errors the Secrets
    Manager operations document:
    - a version holds zero or one label, and a label is held by at most
      one version: a label given to a version replaces the label it had
      and leaves the version that held it;
    - GetSecretValue without a version returns the CURRENT version;
    - PutSecretValue creates the version under the given label; repeating
      it with the same content is accepted and changes nothing, with
      another content it is refused;
    - UpdateSecretVersionStage moves a label to MoveToVersionId; a label
      held by another version has to be taken from it by naming that
      version as RemoveFromVersionId; the version AWSCURRENT is taken
      from becomes the PREVIOUS version;
    - a refused call changes nothing.
    The target is one database account: ModifyDBCluster sets its password,
    a connection is granted to the matching host, user, password and
    port. *)

Record Version : Type := {
  content : text;
  stages : list string }.

Record Target : Type := {
  cluster_id : string;
  db_host : string;
  db_user : string;
  db_port : Z;
  db_password : string;
  available : bool }.

Record World : Type := {
  secret_name : string;
  versions : list (string * Version);
  random : list string;
  target : Target }.

Definition has_stage (s : string) (v : Version) : bool :=
  existsb (String.eqb s) (stages v).

(** The identifiers of the versions that hold stage [s]. *)
Definition holders (s : string) (vs : list (string * Version)) : list string :=
  map fst (filter (fun e => has_stage s (snd e)) vs).

Definition remove_stage (s : string) (v : Version) : Version :=
  {| content := content v;
     stages := filter (fun x => negb (String.eqb s x)) (stages v) |}.

(** Modelled from the spec: the store is not part of the repository;
    section 3 has a version hold zero or one label, so the label a version
    is given replaces the one it had. *)
Definition add_stage (s : string) (v : Version) : Version :=
  {| content := content v; stages := [s] |}.

Definition detach (s : string) (vs : list (string * Version))
  : list (string * Version) :=
  map (fun e => (fst e, remove_stage s (snd e))) vs.

Definition attach (s id : string) (vs : list (string * Version))
  : list (string * Version) :=
  map (fun e => if String.eqb (fst e) id then (fst e, add_stage s (snd e))
                else e) vs.

(** Stage [s] leaves whoever holds it and goes to version [id]. *)
Definition move (s id : string) (vs : list (string * Version))
  : list (string * Version) :=
  attach s id (detach s vs).

Fixpoint document_eqb (a b : document) : bool :=
  match a, b with
  | DNull, DNull => true
  | DBool x, DBool y => Bool.eqb x y
  | DNum x, DNum y => literal_eqb x y
  | DStr x, DStr y => String.eqb x y
  | DArr l, DArr l' =>
      (fix items (l l' : list document) : bool :=
         match l, l' with
         | [], [] => true
         | x :: xs, y :: ys => document_eqb x y && items xs ys
         | _, _ => false
         end) l l'
  | DObj l, DObj l' =>
      (fix fields (l l' : list (string * document)) : bool :=
         match l, l' with
         | [], [] => true
         | (k, x) :: xs, (k', y) :: ys =>
             String.eqb k k' && document_eqb x y && fields xs ys
         | _, _ => false
         end) l l'
  | _, _ => false
  end.

Definition text_eqb (a b : text) : bool :=
  match a, b with
  | Stringified x, Stringified y => document_eqb x y
  | Unparsable x, Unparsable y => String.eqb x y
  | _, _ => false
  end.

Definition not_found {A : Type} : Outcome A :=
  Rejected (ServiceError "ResourceNotFoundException").

Definition invalid_parameter {A : Type} : Outcome A :=
  Rejected (ServiceError "InvalidParameterException").

Definition with_versions (w : World) (vs : list (string * Version)) : World :=
  {| secret_name := secret_name w; versions := vs;
     random := random w; target := target w |}.

Definition get_secret_value (name : string) (vid : option string) (w : World)
  : Outcome GetSecretValueResponse :=
  if negb (String.eqb name (secret_name w)) then not_found
  else
    let id := match vid with
              | Some v => Some v
              | None => hd_error (holders "AWSCURRENT" (versions w))
              end in
    match id with
    | None => not_found
    | Some v =>
        match lookup v (versions w) with
        | None => not_found
        | Some ver =>
            Resolved {| SecretString := Some (content ver);
                        VersionId := v;
                        VersionStages := stages ver |}
        end
    end.

(** Versions without a stage are deprecated and are not listed. *)
Definition describe_secret (name : string) (w : World)
  : Outcome DescribeSecretResponse :=
  if negb (String.eqb name (secret_name w)) then not_found
  else
    Resolved {| VersionIdsToStages :=
      Some (map (fun e => (fst e, stages (snd e)))
              (filter (fun e => match stages (snd e) with
                                | [] => false
                                | _ :: _ => true
                                end) (versions w))) |}.

(** [random w] lists the passwords the generator hands out next. *)
Definition get_random_password (w : World)
  : World * Outcome GetRandomPasswordResponse :=
  match random w with
  | [] => (w, Rejected (ServiceError "InternalServiceError"))
  | r :: rest =>
      ({| secret_name := secret_name w; versions := versions w;
          random := rest; target := target w |},
       Resolved {| RandomPassword := r |})
  end.

Definition put_secret_value (name token : string) (s : text)
    (stgs : list string) (w : World)
  : World * Outcome PutSecretValueResponse :=
  if negb (String.eqb name (secret_name w)) then (w, not_found)
  else
    match lookup token (versions w) with
    | Some ver =>
        if text_eqb (content ver) s then
          (w, Resolved {| put_VersionId := token;
                          put_VersionStages := stages ver |})
        else (w, Rejected (ServiceError "ResourceExistsException"))
    | None =>
        let others := fold_left (fun vs st => detach st vs) stgs (versions w) in
        (with_versions w
           (others ++ [(token, {| content := s; stages := stgs |})]),
         Resolved {| put_VersionId := token; put_VersionStages := stgs |})
    end.

Definition mem (x : string) (l : list string) : bool :=
  existsb (String.eqb x) l.

(** Modelled from the spec: the store is not part of the repository;
    this is moveLabel of section 6.  The label leaves whoever holds it and
    becomes the one label of [move_to]; when it is AWSCURRENT, the version
    it is taken from becomes the one PREVIOUS version.  The refusals are
    those the service documents. *)
Definition update_secret_version_stage (name stage move_to : string)
    (remove_from : option string) (w : World) : World * Outcome unit :=
  if negb (String.eqb name (secret_name w)) then (w, not_found)
  else if negb (mem move_to (map fst (versions w))) then (w, not_found)
  else
    match remove_from with
    | None =>
        match filter (fun h => negb (String.eqb h move_to))
                (holders stage (versions w)) with
        | [] => (with_versions w (attach stage move_to (versions w)),
                 Resolved tt)
        | _ :: _ => (w, invalid_parameter)
        end
    | Some r =>
        if mem r (holders stage (versions w)) then
          let moved := move stage move_to (versions w) in
          (with_versions w
             (if String.eqb stage "AWSCURRENT" && negb (String.eqb r move_to)
              then move "AWSPREVIOUS" r moved
              else moved),
           Resolved tt)
        else (w, invalid_parameter)
    end.

Definition modify_db_cluster (cluster : string) (pw : JsValue) (w : World)
  : World * Outcome unit :=
  if available (target w) && String.eqb cluster (cluster_id (target w)) then
    match pw with
    | Some (JStr s) =>
        ({| secret_name := secret_name w; versions := versions w;
            random := random w;
            target := {| cluster_id := cluster_id (target w);
                         db_host := db_host (target w);
                         db_user := db_user (target w);
                         db_port := db_port (target w);
                         db_password := s;
                         available := available (target w) |} |},
         Resolved tt)
    | _ => (w, Rejected (ServiceError "InvalidParameterType"))
    end
  else (w, Rejected (ServiceError "DBClusterNotFoundFault")).

Definition is_str (v : JsValue) (s : string) : bool :=
  match v with
  | Some (JStr s') => String.eqb s' s
  | _ => false
  end.

Definition is_num (v : JsValue) (n : Z) : bool :=
  match v with
  | Some (JNum n') => number_eqb n' n
  | _ => false
  end.

Definition create_connection (host user password port : JsValue) (w : World)
  : Outcome Connection :=
  if available (target w)
     && is_str host (db_host (target w))
     && is_str user (db_user (target w))
     && is_str password (db_password (target w))
     && is_num port (db_port (target w))
  then Resolved Connected
  else Rejected (ServiceError "ER_ACCESS_DENIED_ERROR").

Definition aws : Env World :=
  fun c =>
    match c as c0 return World -> World * Outcome (Resp c0) with
    | GetSecretValue name vid => fun w => (w, get_secret_value name vid w)
    | DescribeSecret name => fun w => (w, describe_secret name w)
    | GetRandomPassword _ => get_random_password
    | PutSecretValue name token s stgs => put_secret_value name token s stgs
    | UpdateSecretVersionStage name stage move_to remove_from =>
        update_secret_version_stage name stage move_to remove_from
    | ModifyDBCluster cluster _ pw => modify_db_cluster cluster pw
    | CreateConnection host user password port _ =>
        fun w => (w, create_connection host user password port w)
    end.

(** ** The scenario of the spec (section 8) *)

Definition db_cred : Config := {| secretsmanager_name := "db-cred" |}.

Definition payload (password : string) : document :=
  DObj [("username", DStr "app"); ("password", DStr password);
        ("host", DStr "h"); ("port", DNum 3306)].

Definition v1 : Version :=
  {| content := Stringified (payload "old"); stages := ["AWSCURRENT"] |}.

Definition database (password : string) : Target :=
  {| cluster_id := "phat-cluster"; db_host := "h"; db_user := "app";
     db_port := 3306; db_password := password; available := true |}.

Definition world0 : World :=
  {| secret_name := "db-cred"; versions := [("v1", v1)];
     random := ["new1"; "new2"]; target := database "old" |}.

Definition request (step token : string) : Event :=
  {| Step := Some (JStr step); ClientRequestToken := token;
     SecretId := "arn:aws:secretsmanager:us-east-1:1234:secret:db-cred" |}.

Definition exec {A : Type} (p : Prog A) (w : World) : World :=
  world (run aws p w).

(** The world of the scenario once [createSecret] has run for token t2:
    the PENDING version carries the password new1, the database still has
    the password old. *)
Definition t2 : Version :=
  {| content := Stringified (payload "new1"); stages := ["AWSPENDING"] |}.

Definition world1 : World :=
  {| secret_name := "db-cred"; versions := [("v1", v1); ("t2", t2)];
     random := ["new2"]; target := database "old" |}.

(** The step names the [switch] of the handler knows. *)
Definition known_steps : list string :=
  ["createSecret"; "setSecret"; "testSecret"; "finishSecret"].

(** What a trace shows of a call: the request and whether it was
    fulfilled. *)
Definition seen {W : Type} (m : Made W) : Call * bool :=
  (call m, fulfilled m).

(** The calls [testSecret] can make: reading a secret value and opening a
    connection. *)
Definition is_probe (c : Call) : Prop :=
  match c with
  | GetSecretValue _ _ => True
  | CreateConnection _ _ _ _ _ => True
  | _ => False
  end.

(** The scenario with the database out of reach. *)
Definition world1_down : World :=
  {| secret_name := "db-cred"; versions := [("v1", v1); ("t2", t2)];
     random := ["new2"];
     target := {| cluster_id := "phat-cluster"; db_host := "h";
                  db_user := "app"; db_port := 3306; db_password := "old";
                  available := false |} |}.

(** A store in which no version holds AWSCURRENT. *)
Definition world_no_current : World :=
  {| secret_name := "db-cred";
     versions := [("v1", {| content := Stringified (payload "old");
                            stages := ["AWSPREVIOUS"] |});
                  ("t2", t2)];
     random := []; target := database "new1" |}.

(** A store whose generator hands out the password already in use. *)
Definition secret0 : string := "k3Vq8ZrT!mXw9LbN5cYd2HfG7sJp4Au#".

Definition world_repeat : World :=
  {| secret_name := "db-cred";
     versions := [("v1", {| content := Stringified (payload secret0);
                            stages := ["AWSCURRENT"] |})];
     random := [secret0]; target := database secret0 |}.

(** The calls of [createSecret] when it writes a version. *)
Definition createSecret_calls (config : Config) (token : string) (s : text)
  : list Call :=
  [GetSecretValue (secretsmanager_name config) None;
   DescribeSecret (secretsmanager_name config);
   GetSecretValue (secretsmanager_name config) (Some token);
   GetRandomPassword excluded;
   PutSecretValue (secretsmanager_name config) token s ["AWSPENDING"]].

(** The calls that appear in the text of each step. *)
Definition createSecret_may_call (c : Call) : Prop :=
  match c with
  | GetSecretValue _ _ => True
  | DescribeSecret _ => True
  | GetRandomPassword _ => True
  | PutSecretValue _ _ _ _ => True
  | _ => False
  end.

Definition setSecret_may_call (c : Call) : Prop :=
  match c with
  | GetSecretValue _ _ => True
  | ModifyDBCluster _ _ _ => True
  | CreateConnection _ _ _ _ _ => True
  | _ => False
  end.

Definition finishSecret_may_call (c : Call) : Prop :=
  match c with
  | DescribeSecret _ => True
  | UpdateSecretVersionStage _ _ _ _ => True
  | _ => False
  end.

(** Two runs that made the same calls, left the same world and failed with
    the same error, if they failed. *)
Definition same_outcome {W A B : Type} (r : Run W A) (r' : Run W B) : Prop :=
  world r = world r'
  /\ calls r = calls r'
  /\ forall e, result r = Rejected e <-> result r' = Rejected e.



(** What [JSON.parse] returns on a SecretString, when it returns. *)
Definition parsed (s : option text) : option json :=
  match s with
  | Some (Stringified d) => Some (read d)
  | _ => None
  end.

(** A SecretString that [JSON.parse] turns into something other than
    [null]. *)
Definition parses_to (s : option text) (j : json) : Prop :=
  parsed s = Some j /\ j <> JNull.

(** The reference world seen by a role that is denied putSecretValue. *)
Definition aws_denied : Env World :=
  fun c =>
    match c as c0 return World -> World * Outcome (Resp c0) with
    | PutSecretValue _ _ _ _ =>
        fun w => (w, Rejected (ServiceError "AccessDeniedException"))
    | c0 => aws c0
    end.

(** The reference world behind a network that carries only the next [n]
    calls: the state is the world and the number of calls left; once it is
    used up every call is rejected without reaching the services. *)
Definition aws_for : Env (World * nat) :=
  fun c wn =>
    match snd wn with
    | O => (wn, Rejected (ServiceError "TimeoutError"))
    | S n => let (w', o) := aws c (fst wn) in ((w', n), o)
    end.

(** The world with another password on the database account. *)
Definition with_password (w : World) (s : string) : World :=
  {| secret_name := secret_name w; versions := versions w;
     random := random w;
     target := {| cluster_id := cluster_id (target w);
                  db_host := db_host (target w);
                  db_user := db_user (target w);
                  db_port := db_port (target w);
                  db_password := s;
                  available := available (target w) |} |}.

(** A store that still keeps the version before the CURRENT one. *)
Definition v0 : Version :=
  {| content := Stringified (payload "older"); stages := ["AWSPREVIOUS"] |}.


(** A field of a JSON text that is an object: where the text repeats a
    key, the last member of that name. *)
Definition member (d : document) (k : string) : option document :=
  match d with
  | DObj fields => lookup_last k fields
  | _ => None
  end.

(** A text as [JSON.stringify] prints what [JSON.parse] read of it. *)
Definition rewritten (d : document) : document := print (read d).

(** A text that is rewritten as it is: its numbers are printed back as
    the decimals the text spells and its objects list every key once, in
    the order of enumeration. *)
Definition stable (d : document) : bool := document_eqb (rewritten d) d.

(** A CURRENT payload whose port overflows the numbers of JavaScript. *)
Definition overflowing : document :=
  DObj [("username", DStr "app"); ("password", DStr "old");
        ("host", DStr "h");
        ("port", DNum {| minus := false; digits := 1; exponent10 := 999 |})].

Definition world_overflow : World :=
  {| secret_name := "db-cred";
     versions := [("v1", {| content := Stringified overflowing;
                            stages := ["AWSCURRENT"] |})];
     random := ["new1"]; target := database "old" |}.

(** * Properties of programs in any environment *)

(** [only P p]: every call [p] can make, however its calls are answered,
    satisfies [P]. *)
Inductive only {A : Type} (P : Call -> Prop) : Prog A -> Prop :=
| only_Ret (a : A) : only P (Ret a)
| only_Throw (e : Error) : only P (Throw e)
| only_Log (tag : string) (args : list LogArg) (k : Prog A) :
    only P k -> only P (Log tag args k)
| only_Vis (c : Call) (k : Outcome (Resp c) -> Prog A) :
    P c -> (forall o, only P (k o)) -> only P (Vis c k).

(** [settles p]: [p] returns, however its calls are answered. *)
Inductive settles {A : Type} : Prog A -> Prop :=
| settles_Ret (a : A) : settles (Ret a)
| settles_Log (tag : string) (args : list LogArg) (k : Prog A) :
    settles k -> settles (Log tag args k)
| settles_Vis (c : Call) (k : Outcome (Resp c) -> Prog A) :
    (forall o, settles (k o)) -> settles (Vis c k).

(** A call that leaves the world as it found it. *)
Definition read_only {W : Type} (env : Env W) (c : Call) : Prop :=
  forall w, fst (env c w) = w.

(** [n] invocations in a row. *)
Fixpoint repeatedly {W A : Type} (env : Env W) (p : Prog A) (n : nat) (w : W)
  : W :=
  match n with
  | O => w
  | S n' => repeatedly env p n' (world (run env p w))
  end.

Create HintDb prog discriminated.

Section Shapes.

Context {A B : Type}.

Lemma only_bind (P : Call -> Prop) (p : Prog A) (f : A -> Prog B) :
  only P p -> (forall a, only P (f a)) -> only P (bind p f).
Proof.
  intros Hp Hf. induction Hp; simpl; auto using @only.
Qed.

Lemma only_try_catch (P : Call -> Prop) (p : Prog A) (h : Error -> Prog A) :
  only P p -> (forall e, only P (h e)) -> only P (try_catch p h).
Proof.
  intros Hp Hh. induction Hp; simpl; auto using @only.
Qed.

Lemma settles_bind (p : Prog A) (f : A -> Prog B) :
  settles p -> (forall a, settles (f a)) -> settles (bind p f).
Proof.
  intros Hp Hf. induction Hp; simpl; auto using @settles.
Qed.

(** A [try] whose [catch] block returns, returns. *)
Lemma settles_try_catch (p : Prog A) (h : Error -> Prog A) :
  (forall e, settles (h e)) -> settles (try_catch p h).
Proof.
  intros Hh. induction p; simpl; auto using @settles.
Qed.

End Shapes.

Lemma only_await (P : Call -> Prop) (c : Call) : P c -> only P (await c).
Proof.
  intros Hc. apply only_Vis; [exact Hc | intros [r | e]; constructor].
Qed.

Lemma only_log {P : Call -> Prop} (tag : string) (args : list LogArg) :
  only P (log tag args).
Proof. repeat constructor. Qed.

Lemma only_JSON_parse (P : Call -> Prop) (s : option text) :
  only P (JSON_parse s).
Proof. destruct s as [[j | s] | ]; constructor. Qed.

Lemma only_get_prop (P : Call -> Prop) (o : json) (k : string) :
  only P (get_prop o k).
Proof. destruct o; constructor. Qed.

Lemma settles_log (tag : string) (args : list LogArg) :
  settles (log tag args).
Proof. repeat constructor. Qed.

#[local] Hint Resolve only_await only_log only_JSON_parse only_get_prop
  settles_log : prog.
#[local] Hint Constructors only settles : prog.

(** Case analysis on how the environment answers the call made in world
    [w]. *)
Ltac answered env w :=
  match goal with
  | |- context [env ?c w] =>
      let w0 := fresh "w0" in
      let a := fresh "a" in
      let e := fresh "e" in
      destruct (env c w) as [w0 [a | e]]; simpl
  end.

Section Runs.

Context {W A : Type} (env : Env W).

Lemma run_only_read_only (p : Prog A) :
  only (read_only env) p ->
  forall w, world (run env p w) = w
            /\ Forall (fun m => after m = w) (calls (run env p w)).
Proof.
  induction 1 as [a | e | tag args k _ IH | c k Hc _ IH]; intros w; simpl.
  - split; [reflexivity | constructor].
  - split; [reflexivity | constructor].
  - apply IH.
  - specialize (Hc w). destruct (env c w) as [w' o]. simpl in *. subst w'.
    destruct (IH o w) as [Hw Hcalls]. split; [exact Hw | ].
    constructor; [reflexivity | exact Hcalls].
Qed.

Lemma run_settles (p : Prog A) :
  settles p -> forall w, exists a, result (run env p w) = Resolved a.
Proof.
  induction 1 as [a | tag args k _ IH | c k _ IH]; intros w; simpl.
  - exists a. reflexivity.
  - apply IH.
  - destruct (env c w) as [w' o]. simpl. apply IH.
Qed.

Lemma repeatedly_fixed (p : Prog A) (w : W) :
  world (run env p w) = w -> forall n, repeatedly env p n w = w.
Proof.
  intros Hw n. induction n as [ | n IH]; simpl; [reflexivity | ].
  rewrite Hw. exact IH.
Qed.

End Runs.

Lemma getConnection_only_probes (o : json) :
  only is_probe (getConnection o).
Proof.
  unfold getConnection.
  apply only_bind; [auto with prog | intros _].
  apply only_try_catch.
  - repeat (apply only_bind; [solve [auto with prog] | intros ?]).
    apply only_bind; [apply only_await; exact I | intros ?; constructor].
  - intros e. apply only_bind; [auto with prog | intros _; constructor].
Qed.

Lemma testSecret_only_probes (config : Config) (token : string) :
  only is_probe (testSecret config token).
Proof.
  unfold testSecret. apply only_try_catch.
  - apply only_bind; [apply only_await; exact I | intros r].
    repeat (apply only_bind; [solve [auto with prog] | intros ?]).
    apply only_bind; [apply getConnection_only_probes | intros ?; constructor].
  - intros e. auto with prog.
Qed.

Lemma only_weaken {A : Type} (P Q : Call -> Prop) (p : Prog A) :
  (forall c, P c -> Q c) -> only P p -> only Q p.
Proof.
  intros HPQ Hp. induction Hp; auto with prog.
Qed.

(** [testSecret] returns, whatever the store and the target answer. *)
Lemma testSecret_settles (config : Config) (token : string) :
  settles (testSecret config token).
Proof.
  unfold testSecret. apply settles_try_catch. intros e. apply settles_log.
Qed.

Lemma testSecret_never_rejected {W : Type} (env : Env W) (config : Config)
    (token : string) (w : W) :
  result (run env (testSecret config token) w) = Resolved tt.
Proof.
  destruct (run_settles env _ (testSecret_settles config token) w) as [[] H].
  exact H.
Qed.

Lemma strict_eq_false (v : JsValue) (s : string) :
  v <> Some (JStr s) -> strict_eq v s = false.
Proof.
  destruct v as [[ | b | n | s' | l | l] | ]; simpl; try reflexivity.
  intros Hv. destruct (String.eqb_spec s' s); [congruence | reflexivity].
Qed.

Lemma JSON_parse_parsed (s : option text) (j : json) :
  parsed s = Some j -> JSON_parse s = Ret j.
Proof.
  destruct s as [[d | u] | ]; simpl; intros H; inversion H; reflexivity.
Qed.

Lemma get_prop_value (j : json) (k : string) :
  j <> JNull -> get_prop j k = Ret (prop j k).
Proof. destruct j; [contradiction | reflexivity ..]. Qed.

Lemma set_prop_value (j : json) (k : string) (v : json) :
  j <> JNull -> set_prop j k v = Ret (assign j k v).
Proof. destruct j; [contradiction | reflexivity ..]. Qed.

(** The run of [createSecret] when no version can be read for the token:
    the password of the CURRENT payload is replaced by the generated one
    and the result is put under the token, staged AWSPENDING; a rejected
    put is caught and logged. *)
Lemma createSecret_puts {W : Type} (env : Env W) (config : Config)
    (token : string) (w wa wb wc wd : W) (current : GetSecretValueResponse)
    (j : json) (metadata : DescribeSecretResponse) (e : Error)
    (generated : GetRandomPasswordResponse) :
  env (GetSecretValue (secretsmanager_name config) None) w
  = (wa, Resolved current) ->
  parsed (SecretString current) = Some j ->
  j <> JNull ->
  env (DescribeSecret (secretsmanager_name config)) wa
  = (wb, Resolved metadata) ->
  env (GetSecretValue (secretsmanager_name config) (Some token)) wb
  = (wc, Rejected e) ->
  env (GetRandomPassword excluded) wc = (wd, Resolved generated) ->
  let s := JSON_stringify
             (assign j "password" (JStr (RandomPassword generated))) in
  let put := PutSecretValue (secretsmanager_name config) token s
               ["AWSPENDING"] in
  let r := run env (createSecret config token) w in
  map call (calls r) = createSecret_calls config token s
  /\ world r = fst (env put wd)
  /\ result r = match snd (env put wd) with
                | Resolved x => Resolved (Some x)
                | Rejected _ => Resolved None
                end.
Proof.
  intros Hcurrent Hstring Hj Hdescribe Htoken Hrandom.
  unfold createSecret, createSecret_calls. simpl.
  rewrite Hcurrent. simpl. rewrite (JSON_parse_parsed _ _ Hstring). simpl.
  rewrite (get_prop_value j "password" Hj). simpl.
  rewrite Hdescribe. simpl. rewrite Htoken. simpl.
  rewrite Hrandom. simpl.
  rewrite (set_prop_value j "password" _ Hj). simpl.
  answered env wd; repeat split.
Qed.

(** * Properties of the reference store *)

Lemma has_stage_remove_same (s : string) (v : Version) :
  has_stage s (remove_stage s v) = false.
Proof.
  unfold has_stage, remove_stage. simpl.
  induction (stages v) as [ | x l IH]; simpl; [reflexivity | ].
  destruct (String.eqb_spec s x) as [Heq | Hne]; simpl; [exact IH | ].
  destruct (String.eqb_spec s x); [contradiction | exact IH].
Qed.

Lemma has_stage_remove_other (s s' : string) (v : Version) :
  s <> s' -> has_stage s (remove_stage s' v) = has_stage s v.
Proof.
  intros Hne. unfold has_stage, remove_stage. simpl.
  induction (stages v) as [ | x l IH]; simpl; [reflexivity | ].
  destruct (String.eqb_spec s' x) as [Heq | Hne']; simpl.
  - destruct (String.eqb_spec s x); [congruence | exact IH].
  - rewrite IH. reflexivity.
Qed.

Lemma has_stage_add_same (s : string) (v : Version) :
  has_stage s (add_stage s v) = true.
Proof.
  unfold has_stage, add_stage. simpl. rewrite String.eqb_refl. reflexivity.
Qed.

Lemma has_stage_add_other (s s' : string) (v : Version) :
  s <> s' -> has_stage s (add_stage s' v) = false.
Proof.
  intros Hne. unfold has_stage, add_stage. simpl.
  destruct (String.eqb_spec s s'); [contradiction | reflexivity].
Qed.

Lemma ids_detach (s : string) (vs : list (string * Version)) :
  map fst (detach s vs) = map fst vs.
Proof.
  unfold detach. rewrite map_map. reflexivity.
Qed.

Lemma ids_attach (s id : string) (vs : list (string * Version)) :
  map fst (attach s id vs) = map fst vs.
Proof.
  unfold attach. rewrite map_map. apply map_ext.
  intros [k v]. simpl. destruct (String.eqb k id); reflexivity.
Qed.

Lemma holders_app (s : string) (a b : list (string * Version)) :
  holders s (a ++ b) = holders s a ++ holders s b.
Proof.
  unfold holders. rewrite filter_app, map_app. reflexivity.
Qed.

Lemma holders_detach_same (s : string) (vs : list (string * Version)) :
  holders s (detach s vs) = [].
Proof.
  induction vs as [ | [k v] vs IH]; [reflexivity | ].
  unfold holders in *. simpl. rewrite has_stage_remove_same. exact IH.
Qed.

Lemma holders_detach_other (s s' : string) (vs : list (string * Version)) :
  s <> s' -> holders s (detach s' vs) = holders s vs.
Proof.
  intros Hne. induction vs as [ | [k v] vs IH]; [reflexivity | ].
  unfold holders in *. simpl. rewrite has_stage_remove_other by exact Hne.
  destruct (has_stage s v); simpl; rewrite IH; reflexivity.
Qed.

(** A version that is given a label loses the one it had. *)
Lemma holders_attach_other (s s' id : string)
    (vs : list (string * Version)) :
  s <> s' ->
  holders s (attach s' id vs)
  = filter (fun k => negb (String.eqb k id)) (holders s vs).
Proof.
  intros Hne. induction vs as [ | [k v] vs IH]; [reflexivity | ].
  unfold holders in *. simpl.
  destruct (String.eqb k id) eqn:Hk; simpl.
  - rewrite has_stage_add_other by exact Hne.
    destruct (has_stage s v); simpl; rewrite ?Hk; simpl; exact IH.
  - destruct (has_stage s v); simpl; rewrite ?Hk; simpl; rewrite IH;
      reflexivity.
Qed.

Lemma holders_move_other (s s' id : string) (vs : list (string * Version)) :
  s <> s' ->
  holders s (move s' id vs)
  = filter (fun k => negb (String.eqb k id)) (holders s vs).
Proof.
  intros Hne. unfold move.
  rewrite holders_attach_other, holders_detach_other by exact Hne.
  reflexivity.
Qed.

Lemma attach_absent (s id : string) (vs : list (string * Version)) :
  ~ In id (map fst vs) -> attach s id vs = vs.
Proof.
  induction vs as [ | [k v] vs IH]; simpl; intros Hid; [reflexivity | ].
  destruct (String.eqb_spec k id) as [Heq | Hne].
  - exfalso. apply Hid. left. exact Heq.
  - f_equal. apply IH. intros Hin. apply Hid. right. exact Hin.
Qed.

Lemma holders_nil_cons (s k : string) (v : Version)
    (vs : list (string * Version)) :
  holders s ((k, v) :: vs) = [] -> has_stage s v = false /\ holders s vs = [].
Proof.
  unfold holders. simpl. destruct (has_stage s v); simpl.
  - discriminate.
  - auto.
Qed.

(** Attaching a stage nobody holds makes the version its one holder. *)
Lemma holders_attach_free (s id : string) (vs : list (string * Version)) :
  NoDup (map fst vs) -> In id (map fst vs) -> holders s vs = [] ->
  holders s (attach s id vs) = [id].
Proof.
  induction vs as [ | [k v] vs IH]; simpl; intros Hnodup Hin Hfree.
  - contradiction.
  - apply holders_nil_cons in Hfree. destruct Hfree as [Hv Hvs].
    inversion Hnodup as [ | k' l Hk Hrest]; subst.
    destruct (String.eqb_spec k id) as [Heq | Hne].
    + subst k. rewrite attach_absent by exact Hk.
      unfold holders in *. simpl. rewrite has_stage_add_same. simpl.
      rewrite Hvs. reflexivity.
    + destruct Hin as [Heq | Hin]; [contradiction | ].
      unfold holders in *. simpl. rewrite Hv.
      apply IH; assumption.
Qed.

Lemma holders_move (s id : string) (vs : list (string * Version)) :
  NoDup (map fst vs) -> In id (map fst vs) -> holders s (move s id vs) = [id].
Proof.
  intros Hnodup Hin. unfold move. apply holders_attach_free.
  - rewrite ids_detach. exact Hnodup.
  - rewrite ids_detach. exact Hin.
  - apply holders_detach_same.
Qed.

Lemma holders_ids (s : string) (vs : list (string * Version)) (id : string) :
  In id (holders s vs) -> In id (map fst vs).
Proof.
  unfold holders. intros Hin. apply in_map_iff in Hin.
  destruct Hin as [e [He Hin]]. apply filter_In in Hin.
  apply in_map_iff. exists e. tauto.
Qed.

Lemma mem_In (x : string) (l : list string) : mem x l = true <-> In x l.
Proof.
  unfold mem. rewrite existsb_exists. split.
  - intros [y [Hy Heq]]. apply String.eqb_eq in Heq. subst y. exact Hy.
  - intros Hx. exists x. split; [exact Hx | apply String.eqb_refl].
Qed.

Lemma lookup_In {V : Type} (k : string) (l : list (string * V)) :
  In k (map fst l) -> exists v, lookup k l = Some v.
Proof.
  induction l as [ | [k' v'] l IH]; simpl; intros Hin; [contradiction | ].
  destruct (String.eqb_spec k' k) as [Heq | Hne].
  - exists v'. reflexivity.
  - destruct Hin as [Heq | Hin]; [contradiction | exact (IH Hin)].
Qed.

Lemma lookup_None_ids {V : Type} (k : string) (l : list (string * V)) :
  lookup k l = None -> ~ In k (map fst l).
Proof.
  intros Hnone Hin. apply lookup_In in Hin. destruct Hin as [v Hv].
  congruence.
Qed.

Lemma lookup_Some_In {V : Type} (k : string) (l : list (string * V)) (v : V) :
  lookup k l = Some v -> In (k, v) l.
Proof.
  induction l as [ | [k' v'] l IH]; simpl; [discriminate | ].
  destruct (String.eqb_spec k' k) as [Heq | Hne].
  - intros H. inversion H; subst. left. reflexivity.
  - intros H. right. exact (IH H).
Qed.

Lemma lookup_app_found {V : Type} (k : string) (a b : list (string * V))
    (v : V) :
  lookup k a = Some v -> lookup k (a ++ b) = Some v.
Proof.
  induction a as [ | [k' v'] a IH]; simpl; [discriminate | ].
  destruct (String.eqb k' k); auto.
Qed.

Lemma lookup_app_missing {V : Type} (k : string) (a b : list (string * V)) :
  lookup k a = None -> lookup k (a ++ b) = lookup k b.
Proof.
  induction a as [ | [k' v'] a IH]; simpl; [reflexivity | ].
  destruct (String.eqb k' k); [discriminate | exact IH].
Qed.

Lemma lookup_detach (s k : string) (vs : list (string * Version)) :
  lookup k (detach s vs) = option_map (remove_stage s) (lookup k vs).
Proof.
  induction vs as [ | [k' v'] vs IH]; simpl; [reflexivity | ].
  destruct (String.eqb k' k); [reflexivity | exact IH].
Qed.

Section Store.

Variable config : Config.
Variable w : World.
Hypothesis Hname : secret_name w = secretsmanager_name config.

Lemma aws_get_current (c : string) (rest : list string) (vc : Version) :
  holders "AWSCURRENT" (versions w) = c :: rest ->
  lookup c (versions w) = Some vc ->
  aws (GetSecretValue (secretsmanager_name config) None) w
  = (w, Resolved {| SecretString := Some (content vc); VersionId := c;
                    VersionStages := stages vc |}).
Proof.
  intros Hcur Hc. simpl. unfold get_secret_value.
  rewrite Hname, String.eqb_refl. simpl. rewrite Hcur. simpl.
  rewrite Hc. reflexivity.
Qed.


Lemma aws_get_version_missing (id : string) :
  lookup id (versions w) = None ->
  aws (GetSecretValue (secretsmanager_name config) (Some id)) w
  = (w, not_found).
Proof.
  intros Hid. simpl. unfold get_secret_value.
  rewrite Hname, String.eqb_refl. simpl. rewrite Hid. reflexivity.
Qed.

Lemma aws_describe :
  exists metadata,
    aws (DescribeSecret (secretsmanager_name config)) w
    = (w, Resolved metadata).
Proof.
  simpl. unfold describe_secret.
  rewrite Hname, String.eqb_refl. simpl. eexists. reflexivity.
Qed.

Lemma aws_put_new (token : string) (s : text) :
  lookup token (versions w) = None ->
  fst (aws (PutSecretValue (secretsmanager_name config) token s
              ["AWSPENDING"]) w)
  = with_versions w
      (detach "AWSPENDING" (versions w)
       ++ [(token, {| content := s; stages := ["AWSPENDING"] |})]).
Proof.
  intros Htoken. simpl. unfold put_secret_value.
  rewrite Hname, String.eqb_refl. simpl. rewrite Htoken. reflexivity.
Qed.

End Store.



(** On the reference store, [createSecret] for a token without a version
    adds the version, staged AWSPENDING. *)
Lemma createSecret_absent (config : Config) (w : World)
    (token c : string) (rest : list string) (vc : Version) (j : json)
    (generated : string) (later : list string) :
  secret_name w = secretsmanager_name config ->
  holders "AWSCURRENT" (versions w) = c :: rest ->
  lookup c (versions w) = Some vc ->
  parsed (Some (content vc)) = Some j ->
  j <> JNull ->
  lookup token (versions w) = None ->
  random w = generated :: later ->
  exec (createSecret config token) w
  = {| secret_name := secret_name w;
       versions :=
         detach "AWSPENDING" (versions w)
         ++ [(token,
              {| content :=
                   JSON_stringify (assign j "password" (JStr generated));
                 stages := ["AWSPENDING"] |})];
       random := later;
       target := target w |}.
Proof.
  intros Hname Hcur Hc Hcontent Hj Htoken Hrandom.
  destruct (aws_describe config w Hname) as [metadata Hdescribe].
  unfold exec.
  destruct (createSecret_puts aws config token w w w w
              {| secret_name := secret_name w; versions := versions w;
                 random := later; target := target w |}
              _ j metadata (ServiceError "ResourceNotFoundException")
              {| RandomPassword := generated |}
              (aws_get_current config w Hname c rest vc Hcur Hc))
    as [_ [Hworld _]].
  - exact Hcontent.
  - exact Hj.
  - exact Hdescribe.
  - apply (aws_get_version_missing config w Hname token Htoken).
  - simpl. unfold get_random_password. rewrite Hrandom. reflexivity.
  - rewrite Hworld.
    rewrite aws_put_new; [reflexivity | exact Hname | exact Htoken].
Qed.

(** The run of a successful [finishSecret] on the reference store, with
    one CURRENT version [c] other than the token's: one describeSecret, the
    move of AWSCURRENT from [c] to the token's version, one more
    describeSecret. *)
Lemma finishSecret_success (config : Config) (w : World) (token c : string) :
  secret_name w = secretsmanager_name config ->
  holders "AWSCURRENT" (versions w) = [c] ->
  c <> token ->
  let r := run aws (finishSecret config token) w in
  result r = Resolved tt ->
  let w' := with_versions w
              (move "AWSPREVIOUS" c (move "AWSCURRENT" token (versions w))) in
  In token (map fst (versions w))
  /\ world r = w'
  /\ map after (calls r) = [w; w'; w'].
Proof.
  intros Hname Hcur Hne r.
  assert (Hr : r = run aws (finishSecret config token) w) by reflexivity.
  clearbody r.
  unfold finishSecret in Hr. simpl in Hr.
  unfold describe_secret in Hr.
  rewrite Hname, String.eqb_refl in Hr. simpl in Hr.
  unfold update_secret_version_stage in Hr.
  rewrite Hname, String.eqb_refl, Hcur in Hr. simpl in Hr.
  destruct (mem token (map fst (versions w))) eqn:Hmem; simpl in Hr;
    [ | subst r; simpl; intros H; discriminate H].
  apply mem_In in Hmem.
  destruct (curretVersion_of _) as [from | ]; simpl in Hr.
  - destruct (String.eqb_spec from c) as [Heq | Hne']; simpl in Hr;
      [ | subst r; simpl; intros H; discriminate H].
    subst from.
    destruct (String.eqb_spec c token) as [Heq | _]; [contradiction | ].
    simpl in Hr. unfold describe_secret in Hr. simpl in Hr.
    rewrite Hname, String.eqb_refl in Hr. simpl in Hr.
    intros _ w'. subst r w'. simpl. repeat split. exact Hmem.
  - destruct (String.eqb_spec c token) as [Heq | _]; [contradiction | ].
    simpl in Hr. subst r. simpl. intros H. discriminate H.
Qed.

Lemma ids_move (s id : string) (vs : list (string * Version)) :
  map fst (move s id vs) = map fst vs.
Proof.
  unfold move. rewrite ids_attach, ids_detach. reflexivity.
Qed.

Lemma createSecret_absent_result (config : Config) (w : World)
    (token c : string) (rest : list string) (vc : Version) (j : json)
    (generated : string) (later : list string) :
  secret_name w = secretsmanager_name config ->
  holders "AWSCURRENT" (versions w) = c :: rest ->
  lookup c (versions w) = Some vc ->
  parsed (Some (content vc)) = Some j ->
  j <> JNull ->
  lookup token (versions w) = None ->
  random w = generated :: later ->
  result (run aws (createSecret config token) w)
  = Resolved (Some {| put_VersionId := token;
                      put_VersionStages := ["AWSPENDING"] |}).
Proof.
  intros Hname Hcur Hc Hcontent Hj Htoken Hrandom.
  destruct (aws_describe config w Hname) as [metadata Hdescribe].
  destruct (createSecret_puts aws config token w w w w
              {| secret_name := secret_name w; versions := versions w;
                 random := later; target := target w |}
              _ j metadata (ServiceError "ResourceNotFoundException")
              {| RandomPassword := generated |}
              (aws_get_current config w Hname c rest vc Hcur Hc))
    as [_ [_ Hresult]].
  - exact Hcontent.
  - exact Hj.
  - exact Hdescribe.
  - apply (aws_get_version_missing config w Hname token Htoken).
  - simpl. unfold get_random_password. rewrite Hrandom. reflexivity.
  - rewrite Hresult. simpl. unfold put_secret_value. simpl.
    rewrite Hname, String.eqb_refl. simpl. rewrite Htoken. reflexivity.
Qed.





Lemma literal_eqb_eq (x y : literal) : literal_eqb x y = true -> x = y.
Proof.
  destruct x as [s d e], y as [s' d' e']. unfold literal_eqb. simpl.
  intros H. apply andb_true_iff in H. destruct H as [H He].
  apply andb_true_iff in H. destruct H as [Hs Hd].
  apply Bool.eqb_prop in Hs. apply Z.eqb_eq in Hd. apply Z.eqb_eq in He.
  subst. reflexivity.
Qed.

(** ** Objects *)

Lemma lookup_overwrite_same (k : string) (v x : json)
    (l : list (string * json)) :
  lookup k l = Some x -> lookup k (overwrite k v l) = Some v.
Proof.
  induction l as [ | [k' v'] l IH]; simpl; [discriminate | ].
  destruct (String.eqb k' k) eqn:Hk; simpl; rewrite Hk;
    [reflexivity | exact IH].
Qed.

Lemma lookup_overwrite_other (k k' : string) (v : json)
    (l : list (string * json)) :
  k' <> k -> lookup k' (overwrite k v l) = lookup k' l.
Proof.
  intros Hne. induction l as [ | [k0 v0] l IH]; simpl; [reflexivity | ].
  destruct (String.eqb_spec k0 k) as [Heq | Hne0]; simpl.
  - subst k0. destruct (String.eqb_spec k k'); [congruence | exact IH].
  - rewrite IH. reflexivity.
Qed.

Lemma keys_overwrite (k : string) (v : json) (l : list (string * json)) :
  map fst (overwrite k v l) = map fst l.
Proof.
  unfold overwrite. rewrite map_map. apply map_ext.
  intros [k' v']. destruct (String.eqb k' k); reflexivity.
Qed.

Lemma lookup_insert_same (k : string) (v : json) (l : list (string * json)) :
  lookup k l = None -> lookup k (insert k v l) = Some v.
Proof.
  induction l as [ | [k' v'] l IH]; simpl.
  - rewrite String.eqb_refl. reflexivity.
  - destruct (String.eqb k' k) eqn:Hk; [discriminate | ]. intros Hnone.
    destruct (precedes k k'); simpl.
    + rewrite String.eqb_refl. reflexivity.
    + rewrite Hk. exact (IH Hnone).
Qed.

Lemma lookup_insert_other (k k' : string) (v : json)
    (l : list (string * json)) :
  k' <> k -> lookup k' (insert k v l) = lookup k' l.
Proof.
  intros Hne. induction l as [ | [k0 v0] l IH]; simpl.
  - destruct (String.eqb_spec k k'); [congruence | reflexivity].
  - destruct (precedes k k0); simpl.
    + destruct (String.eqb_spec k k'); [congruence | reflexivity].
    + rewrite IH. reflexivity.
Qed.

Lemma keys_insert (k x : string) (v : json) (l : list (string * json)) :
  In x (map fst (insert k v l)) <-> x = k \/ In x (map fst l).
Proof.
  induction l as [ | [k' v'] l IH]; simpl.
  - intuition congruence.
  - destruct (precedes k k'); simpl.
    + intuition congruence.
    + rewrite IH. intuition congruence.
Qed.

Lemma NoDup_insert (k : string) (v : json) (l : list (string * json)) :
  ~ In k (map fst l) -> NoDup (map fst l) -> NoDup (map fst (insert k v l)).
Proof.
  induction l as [ | [k' v'] l IH]; simpl; intros Hk Hl.
  - constructor; [intros [] | constructor].
  - destruct (precedes k k'); simpl.
    + constructor; assumption.
    + inversion Hl as [ | a b Ha Hb]; subst. constructor.
      * rewrite keys_insert. intros [Heq | Hin]; [ | contradiction].
        apply Hk. left. exact Heq.
      * apply IH; [ | exact Hb]. intros Hin. apply Hk. right. exact Hin.
Qed.

Lemma lookup_set_field_same (k : string) (v : json)
    (l : list (string * json)) :
  lookup k (set_field k v l) = Some v.
Proof.
  unfold set_field. destruct (lookup k l) as [x | ] eqn:Hk.
  - apply (lookup_overwrite_same k v x). exact Hk.
  - apply lookup_insert_same. exact Hk.
Qed.

Lemma lookup_set_field_other (k k' : string) (v : json)
    (l : list (string * json)) :
  k' <> k -> lookup k' (set_field k v l) = lookup k' l.
Proof.
  intros Hne. unfold set_field. destruct (lookup k l).
  - apply lookup_overwrite_other. exact Hne.
  - apply lookup_insert_other. exact Hne.
Qed.

Lemma NoDup_set_field (k : string) (v : json) (l : list (string * json)) :
  NoDup (map fst l) -> NoDup (map fst (set_field k v l)).
Proof.
  intros Hl. unfold set_field. destruct (lookup k l) eqn:Hk.
  - rewrite keys_overwrite. exact Hl.
  - apply NoDup_insert; [apply lookup_None_ids; exact Hk | exact Hl].
Qed.

(** Where no key is repeated the last binding is the first. *)
Lemma lookup_last_NoDup {V : Type} (k : string) (l : list (string * V)) :
  NoDup (map fst l) -> lookup_last k l = lookup k l.
Proof.
  induction l as [ | [k' v] l IH]; simpl; intros Hl; [reflexivity | ].
  inversion Hl as [ | a b Ha Hb]; subst. rewrite (IH Hb).
  destruct (String.eqb_spec k' k) as [Heq | Hne].
  - subst k'. destruct (lookup k l) as [x | ] eqn:Hk; [ | reflexivity].
    exfalso. apply Ha. apply lookup_Some_In in Hk.
    apply in_map_iff. exists (k, x). split; [reflexivity | exact Hk].
  - destruct (lookup k l); reflexivity.
Qed.

Lemma lookup_map_values {A B : Type} (f : A -> B) (k : string)
    (l : list (string * A)) :
  lookup k (map (fun kv : string * A => let (k', v) := kv in (k', f v)) l)
  = option_map f (lookup k l).
Proof.
  induction l as [ | [k' v] l IH]; simpl; [reflexivity | ].
  destruct (String.eqb k' k); [reflexivity | exact IH].
Qed.

Lemma keys_map_values {A B : Type} (f : A -> B) (l : list (string * A)) :
  map fst (map (fun kv : string * A => let (k', v) := kv in (k', f v)) l)
  = map fst l.
Proof.
  rewrite map_map. apply map_ext. intros [k v]. reflexivity.
Qed.

Lemma read_object (fields : list (string * document)) :
  read (DObj fields) = JObj (properties fields []).
Proof. reflexivity. Qed.

Lemma lookup_properties (k : string) (fields : list (string * document)) :
  forall l,
    lookup k (properties fields l)
    = match lookup_last k fields with
      | Some v => Some (read v)
      | None => lookup k l
      end.
Proof.
  unfold properties.
  induction fields as [ | [k' v] fields IH]; simpl; intros l;
    [reflexivity | ].
  rewrite IH. destruct (lookup_last k fields); [reflexivity | ].
  destruct (String.eqb_spec k' k) as [Heq | Hne].
  - subst k'. apply lookup_set_field_same.
  - apply lookup_set_field_other. congruence.
Qed.

Lemma NoDup_properties (fields : list (string * document)) :
  forall l, NoDup (map fst l) -> NoDup (map fst (properties fields l)).
Proof.
  unfold properties.
  induction fields as [ | [k v] fields IH]; simpl; intros l Hl;
    [exact Hl | ].
  apply IH. apply NoDup_set_field. exact Hl.
Qed.

(** A field of the text [JSON.stringify] prints for an object. *)
Lemma member_print (k : string) (l : list (string * json)) :
  NoDup (map fst l) ->
  member (print (JObj l)) k = option_map print (lookup k l).
Proof.
  intros Hl. simpl. rewrite lookup_last_NoDup.
  - apply lookup_map_values.
  - rewrite keys_map_values. exact Hl.
Qed.

(** A property of the value [JSON.parse] reads from the text
    [JSON.stringify] prints for an object. *)
Lemma prop_read_print (k : string) (l : list (string * json)) :
  NoDup (map fst l) ->
  prop (read (print (JObj l))) k
  = option_map (fun v => read (print v)) (lookup k l).
Proof.
  intros Hl. change (print (JObj l))
    with (DObj (map (fun kv : string * json =>
                       let (k', v) := kv in (k', print v)) l)).
  rewrite read_object. simpl. rewrite lookup_properties.
  rewrite lookup_last_NoDup by (rewrite keys_map_values; exact Hl).
  rewrite lookup_map_values. destruct (lookup k l); reflexivity.
Qed.

Lemma document_eqb_eq : forall a b, document_eqb a b = true -> a = b.
Proof.
  fix IH 1.
  intros [ | x | x | x | l | l] [ | y | y | y | l' | l']; simpl;
    try discriminate; intros H.
  - reflexivity.
  - apply Bool.eqb_prop in H. congruence.
  - apply literal_eqb_eq in H. congruence.
  - apply String.eqb_eq in H. congruence.
  - f_equal. revert l' H.
    induction l as [ | a l IHl]; intros [ | b l'] H;
      try discriminate H; [reflexivity | ].
    apply andb_true_iff in H. destruct H as [Hab Hl].
    f_equal; [exact (IH a b Hab) | exact (IHl l' Hl)].
  - f_equal. revert l' H.
    induction l as [ | [k a] l IHl]; intros [ | [k' b] l'] H;
      try discriminate H; [reflexivity | ].
    apply andb_true_iff in H. destruct H as [H Hl].
    apply andb_true_iff in H. destruct H as [Hk Hab].
    apply String.eqb_eq in Hk. subst k'.
    f_equal; [f_equal; exact (IH a b Hab) | exact (IHl l' Hl)].
Qed.

(** A text that is rewritten as it is. *)
Lemma rewritten_stable (d : document) : stable d = true -> rewritten d = d.
Proof. apply document_eqb_eq. Qed.

(** What becomes of some texts: an overflowing number, an integer beyond
    53 bits, minus zero, a number below the least positive one, numbers
    that are printed back as spelled, and an object that repeats a key
    and has array indices among its keys. *)
Example rewritten_texts :
  rewritten (DNum {| minus := false; digits := 1; exponent10 := 999 |})
  = DNull
  /\ rewritten (DNum 9007199254740993) = DNum 9007199254740992
  /\ rewritten (DNum {| minus := true; digits := 0; exponent10 := 0 |})
     = DNum 0
  /\ rewritten (DNum {| minus := false; digits := 2; exponent10 := -324 |})
     = DNum 0
  /\ stable (DNum 3306) = true
  /\ stable (DNum {| minus := false; digits := 1; exponent10 := -1 |}) = true
  /\ rewritten (DObj [("b", DStr "1"); ("10", DStr "x"); ("2", DStr "y");
                      ("b", DStr "2"); ("01", DNull)])
     = DObj [("2", DStr "y"); ("10", DStr "x"); ("b", DStr "2");
             ("01", DNull)].
Proof. repeat split; vm_compute; reflexivity. Qed.

(** ** Labels *)

Lemma holders_In (s id : string) (vs : list (string * Version)) :
  In id (holders s vs) -> exists v, In (id, v) vs /\ has_stage s v = true.
Proof.
  unfold holders. intros Hin. apply in_map_iff in Hin.
  destruct Hin as [[k v] [Heq Hin]]. simpl in Heq. subst k.
  apply filter_In in Hin. exists v. exact Hin.
Qed.

Lemma In_unique {V : Type} (k : string) (v v' : V) (l : list (string * V)) :
  NoDup (map fst l) -> In (k, v) l -> In (k, v') l -> v = v'.
Proof.
  induction l as [ | [k0 v0] l IH]; simpl; intros Hl Hv Hv'; [contradiction | ].
  inversion Hl as [ | a b Ha Hb]; subst.
  assert (Hout : forall x : V, In (k, x) l -> k0 <> k).
  { intros x Hx Heq. subst k0. apply Ha. apply in_map_iff.
    exists (k, x). split; [reflexivity | exact Hx]. }
  destruct Hv as [Hv | Hv], Hv' as [Hv' | Hv'].
  - congruence.
  - inversion Hv; subst. exfalso. exact (Hout v' Hv' eq_refl).
  - inversion Hv'; subst. exfalso. exact (Hout v Hv eq_refl).
  - exact (IH Hb Hv Hv').
Qed.

(** A version with one label at most does not hold two different ones. *)
Lemma one_label (s s' : string) (v : Version) :
  length (stages v) <= 1 -> s <> s' ->
  has_stage s v = true -> has_stage s' v = true -> False.
Proof.
  unfold has_stage. destruct (stages v) as [ | x [ | y l]]; simpl.
  - discriminate.
  - intros _ Hne Hs Hs'. rewrite orb_false_r in Hs, Hs'.
    apply String.eqb_eq in Hs. apply String.eqb_eq in Hs'. congruence.
  - intros Hlen. exfalso. lia.
Qed.

(** In a store whose versions hold one label at most, the CURRENT version
    is not the PENDING one. *)
Lemma holders_apart (vs : list (string * Version)) (s s' c token : string) :
  NoDup (map fst vs) ->
  Forall (fun e => length (stages (snd e)) <= 1) vs ->
  s <> s' ->
  In c (holders s vs) -> In token (holders s' vs) -> c <> token.
Proof.
  intros Hids Hone Hne Hc Htoken Heq. subst token.
  apply holders_In in Hc. destruct Hc as [v [Hv Hs]].
  apply holders_In in Htoken. destruct Htoken as [v' [Hv' Hs']].
  rewrite <- (In_unique c v v' vs Hids Hv Hv') in Hs'.
  rewrite Forall_forall in Hone.
  exact (one_label s s' v (Hone (c, v) Hv) Hne Hs Hs').
Qed.

(** A [finishSecret] that returns normally has found the secret. *)
Lemma finishSecret_found (config : Config) (w : World) (token : string) :
  result (run aws (finishSecret config token) w) = Resolved tt ->
  secret_name w = secretsmanager_name config.
Proof.
  destruct (String.eqb_spec (secretsmanager_name config) (secret_name w))
    as [Heq | Hne]; [intros _; symmetry; exact Heq | ].
  unfold finishSecret. simpl. unfold describe_secret.
  destruct (String.eqb_spec (secretsmanager_name config) (secret_name w));
    [contradiction | ].
  simpl. intros H. discriminate H.
Qed.

(** * The claims *)

(** C1.  The spec has [testSecret] fail when the login with the PENDING
    credential fails.  The code does not: in the world where the database
    still has the old password, the connection attempt made with the
    PENDING password new1 is rejected, and [testSecret] returns normally
    all the same (line 190 drops what [getConnection] yields). *)
Theorem testSecret_swallows_failed_login :
  let r := run aws (testSecret db_cred "t2") world1 in
  map seen (calls r)
  = [(GetSecretValue "db-cred" (Some "t2"), true);
     (CreateConnection (Some (JStr "h")) (Some (JStr "app"))
        (Some (JStr "new1")) (Some (JNum 3306)) 5, false)]
  /\ result r = Resolved tt.
Proof.
  vm_compute. split; reflexivity.
Qed.

(** C2.  On the reference store, whose versions have distinct ids and
    hold one label at most: when one version [c] holds CURRENT and the
    token's version holds PENDING, after a successful [finishSecret] the
    token's version is the one CURRENT version, [c] is the one PREVIOUS
    version and no version holds PENDING.  The run passes through no state
    of its own: every call leaves either the world [finishSecret] started
    in or the world it ends in, each with exactly one CURRENT version. *)
Theorem finishSecret_promotes (config : Config) (w : World)
    (token c : string) :
  NoDup (map fst (versions w)) ->
  Forall (fun e => length (stages (snd e)) <= 1) (versions w) ->
  holders "AWSCURRENT" (versions w) = [c] ->
  holders "AWSPENDING" (versions w) = [token] ->
  let r := run aws (finishSecret config token) w in
  result r = Resolved tt ->
  holders "AWSCURRENT" (versions (world r)) = [token]
  /\ holders "AWSPREVIOUS" (versions (world r)) = [c]
  /\ holders "AWSPENDING" (versions (world r)) = []
  /\ Forall (fun m =>
               (after m = w \/ after m = world r)
               /\ length (holders "AWSCURRENT" (versions (after m))) = 1)
       (calls r).
Proof.
  intros Hnodup Hone Hcur Hpending r Hresult.
  pose proof (finishSecret_found config w token Hresult) as Hname.
  assert (Hne : c <> token).
  { apply (holders_apart (versions w) "AWSCURRENT" "AWSPENDING");
      try assumption; [discriminate | | ].
    - rewrite Hcur. left. reflexivity.
    - rewrite Hpending. left. reflexivity. }
  destruct (finishSecret_success config w token c Hname Hcur Hne Hresult)
    as [Htoken [Hworld Hafter]].
  fold r in Hworld, Hafter.
  assert (Hc : In c (map fst (versions w))).
  { apply (holders_ids "AWSCURRENT"). rewrite Hcur. left. reflexivity. }
  assert (Hkeep : forall a b : string,
             a <> b -> filter (fun k => negb (String.eqb k b)) [a] = [a]).
  { intros a b Hab. simpl.
    destruct (String.eqb_spec a b); [contradiction | reflexivity]. }
  assert (Hcur' : holders "AWSCURRENT"
                    (move "AWSPREVIOUS" c
                       (move "AWSCURRENT" token (versions w))) = [token]).
  { rewrite holders_move_other by discriminate.
    rewrite holders_move by assumption. apply Hkeep. congruence. }
  assert (Hcurrent : holders "AWSCURRENT" (versions (world r)) = [token])
    by (rewrite Hworld; exact Hcur').
  split; [exact Hcurrent | ].
  split.
  { rewrite Hworld. simpl. apply holders_move.
    - rewrite ids_move. exact Hnodup.
    - rewrite ids_move. exact Hc. }
  split.
  { rewrite Hworld. simpl.
    rewrite !holders_move_other by discriminate. rewrite Hpending. simpl.
    rewrite String.eqb_refl. reflexivity. }
  rewrite <- Hworld in Hafter.
  assert (Hall : Forall
                   (fun x =>
                      (x = w \/ x = world r)
                      /\ length (holders "AWSCURRENT" (versions x)) = 1)
                   (map after (calls r))).
  { rewrite Hafter.
    constructor; [split; [left; reflexivity | rewrite Hcur; reflexivity] | ].
    constructor;
      [split; [right; reflexivity | rewrite Hcurrent; reflexivity] | ].
    constructor;
      [split; [right; reflexivity | rewrite Hcurrent; reflexivity] | ].
    constructor. }
  apply Forall_map in Hall. exact Hall.
Qed.

Lemma finishSecret_promotes_witness :
  let r := run aws (finishSecret db_cred "t2") world1 in
  holders "AWSCURRENT" (versions (world r)) = ["t2"]
  /\ holders "AWSPREVIOUS" (versions (world r)) = ["v1"]
  /\ holders "AWSPENDING" (versions (world r)) = []
  /\ Forall (fun m =>
               (after m = world1 \/ after m = world r)
               /\ length (holders "AWSCURRENT" (versions (after m))) = 1)
       (calls r).
Proof.
  apply (finishSecret_promotes db_cred world1 "t2" "v1").
  - simpl. repeat constructor; simpl; intuition discriminate.
  - repeat constructor.
  - reflexivity.
  - reflexivity.
  - reflexivity.
Defined.




(** C4, counterexample to the statement of the spec: no version holds
    AWSCURRENT, and [finishSecret] neither fails nor leaves the labels
    alone: it returns normally and the token's version is given
    AWSCURRENT. *)
Lemma finishSecret_without_current :
  let r := run aws (finishSecret db_cred "t2") world_no_current in
  holders "AWSCURRENT" (versions world_no_current) = []
  /\ result r = Resolved tt
  /\ holders "AWSCURRENT" (versions (world r)) = ["t2"]
  /\ ~ (versions (world r) = versions world_no_current
        /\ exists e, result r = Rejected e).
Proof.
  repeat (split; [reflexivity | ]).
  intros [Hsame _]. vm_compute in Hsame. discriminate.
Qed.

(** C4, as the code has it.  [finishSecret] checks no precondition of its
    own: once the version labels are read it asks the store to move
    AWSCURRENT to the token's version, taking it from the last listed
    version whose first label is AWSCURRENT, or from none; when the store
    rejects that call, the step fails with the store's error and does
    nothing more; and it never fails unless a call was rejected. *)
Theorem finishSecret_always_attempts_promotion {W : Type} (env : Env W)
    (config : Config) (token : string) (w w1 : W)
    (metadata : DescribeSecretResponse)
    (entries : list (string * list string)) :
  env (DescribeSecret (secretsmanager_name config)) w
  = (w1, Resolved metadata) ->
  VersionIdsToStages metadata = Some entries ->
  let promotion :=
    UpdateSecretVersionStage (secretsmanager_name config) "AWSCURRENT"
      token (curretVersion_of entries) in
  let r := run env (finishSecret config token) w in
  (exists rest,
      map call (calls r)
      = DescribeSecret (secretsmanager_name config) :: promotion :: rest)
  /\ (forall e, snd (env promotion w1) = Rejected e ->
                result r = Rejected e /\ world r = fst (env promotion w1))
  /\ (forall e, result r = Rejected e ->
                exists m, In m (calls r) /\ fulfilled m = false).
Proof.
  intros Hdescribe Hentries. unfold finishSecret. simpl.
  rewrite Hdescribe. simpl. rewrite Hentries. simpl.
  answered env w1; [destruct a | ].
  - split; [ | split].
    + answered env w0; eexists; reflexivity.
    + intros e' He. discriminate.
    + answered env w0; intros e' He; [discriminate | ].
      eexists. split; [right; right; left; reflexivity | reflexivity].
  - split; [eexists; reflexivity | split].
    + intros e' He. inversion He. split; reflexivity.
    + intros e' He. eexists.
      split; [right; left; reflexivity | reflexivity].
Qed.

Lemma finishSecret_always_attempts_promotion_witness :
  let promotion :=
    UpdateSecretVersionStage "db-cred" "AWSCURRENT" "t2" None in
  let r := run aws (finishSecret db_cred "t2") world_no_current in
  (exists rest,
      map call (calls r) = DescribeSecret "db-cred" :: promotion :: rest)
  /\ (forall e,
        snd (aws promotion world_no_current) = Rejected e ->
        result r = Rejected e
        /\ world r = fst (aws promotion world_no_current))
  /\ (forall e, result r = Rejected e ->
                exists m, In m (calls r) /\ fulfilled m = false).
Proof.
  apply (finishSecret_always_attempts_promotion aws db_cred "t2"
           world_no_current world_no_current
           {| VersionIdsToStages :=
                Some [("v1", ["AWSPREVIOUS"]); ("t2", ["AWSPENDING"])] |}
           [("v1", ["AWSPREVIOUS"]); ("t2", ["AWSPENDING"])]).
  - reflexivity.
  - reflexivity.
Defined.

(** C5, counterexample to the statement of the spec: version t2 holds
    AWSPENDING and [createSecret] is invoked for token t3.  It is not
    rejected, and AWSPENDING is taken from t2. *)
Lemma createSecret_replaces_other_pending :
  let r := run aws (createSecret db_cred "t3") world1 in
  holders "AWSPENDING" (versions world1) = ["t2"]
  /\ ~ ((exists e, result r = Rejected e)
        \/ holders "AWSPENDING" (versions (world r)) = ["t2"]).
Proof.
  split; [reflexivity | ].
  intros [[e He] | Hkept].
  - vm_compute in He. discriminate.
  - vm_compute in Hkept. discriminate.
Qed.

(** C5, as the code has it.  [createSecret] makes no conflict check: the
    response of describeSecret, with the labels, is only logged.  Whenever
    the CURRENT version is read with a SecretString that parses to a
    value other than [null], describeSecret answers (whatever the labels
    are), no version can be read for the token and getRandomPassword
    delivers a password, the new version is put under the token, staged
    AWSPENDING, and [createSecret] returns normally whether the store
    accepts the put or not. *)
Theorem createSecret_makes_no_conflict_check {W : Type} (env : Env W)
    (config : Config) (token : string) (w wa wb wc wd : W)
    (current : GetSecretValueResponse) (j : json)
    (metadata : DescribeSecretResponse) (e : Error)
    (generated : GetRandomPasswordResponse) :
  env (GetSecretValue (secretsmanager_name config) None) w
  = (wa, Resolved current) ->
  parses_to (SecretString current) j ->
  env (DescribeSecret (secretsmanager_name config)) wa
  = (wb, Resolved metadata) ->
  env (GetSecretValue (secretsmanager_name config) (Some token)) wb
  = (wc, Rejected e) ->
  env (GetRandomPassword excluded) wc = (wd, Resolved generated) ->
  let r := run env (createSecret config token) w in
  (exists s,
      In (PutSecretValue (secretsmanager_name config) token s ["AWSPENDING"])
         (map call (calls r)))
  /\ exists x, result r = Resolved x.
Proof.
  intros Hcurrent [Hstring Hj] Hdescribe Htoken Hrandom.
  destruct (createSecret_puts env config token w wa wb wc wd current j
              metadata e generated Hcurrent Hstring Hj Hdescribe Htoken
              Hrandom) as [Hcalls [_ Hresult]].
  split.
  - eexists. rewrite Hcalls. unfold createSecret_calls. simpl.
    do 4 right. left. reflexivity.
  - rewrite Hresult.
    match goal with
    | |- context [snd ?x] => destruct (snd x) as [x' | e']
    end; eexists; reflexivity.
Qed.

Lemma createSecret_makes_no_conflict_check_witness :
  let r := run aws (createSecret db_cred "t3") world1 in
  In ("t2", ["AWSPENDING"])
     [("v1", ["AWSCURRENT"]); ("t2", ["AWSPENDING"])]
  /\ (exists s,
         In (PutSecretValue "db-cred" "t3" s ["AWSPENDING"])
            (map call (calls r)))
  /\ exists x, result r = Resolved x.
Proof.
  split; [simpl; auto | ].
  apply (createSecret_makes_no_conflict_check aws db_cred "t3" world1
           world1 world1 world1
           {| secret_name := "db-cred"; versions := [("v1", v1); ("t2", t2)];
              random := []; target := database "old" |}
           {| SecretString := Some (Stringified (payload "old"));
              VersionId := "v1"; VersionStages := ["AWSCURRENT"] |}
           (read (payload "old"))
           {| VersionIdsToStages :=
                Some [("v1", ["AWSCURRENT"]); ("t2", ["AWSPENDING"])] |}
           (ServiceError "ResourceNotFoundException")
           {| RandomPassword := "new2" |}).
  - reflexivity.
  - split; [reflexivity | discriminate].
  - reflexivity.
  - reflexivity.
  - reflexivity.
Defined.

(** C6, counterexample to the statement of the spec: with the database out
    of reach the password change is rejected, and [setSecret] still
    returns normally instead of reporting an error. *)
Lemma setSecret_failure_not_reported :
  let r := run aws (setSecret db_cred "t2") world1_down in
  ~ (In (ModifyDBCluster "phat-cluster" true (Some (JStr "new1")), false)
        (map seen (calls r))
     -> exists e, result r = Rejected e).
Proof.
  intros r H. destruct H as [e He].
  - vm_compute. auto.
  - vm_compute in He. discriminate.
Qed.

(** C6, as the code has it.  Once the PENDING version has been read and
    its SecretString parsed to a value other than [null], [setSecret]
    returns normally whatever the password change and the connection
    attempt give; a rejected password change is caught and logged, and the
    connection attempt is still made. *)
Theorem setSecret_logs_apply_failure {W : Type} (env : Env W)
    (config : Config) (token : string) (w w1 : W)
    (pending : GetSecretValueResponse) (j : json) :
  env (GetSecretValue (secretsmanager_name config) (Some token)) w
  = (w1, Resolved pending) ->
  parses_to (SecretString pending) j ->
  let r := run env (setSecret config token) w in
  result r = Resolved tt
  /\ forall w2 e,
      env (ModifyDBCluster "phat-cluster" true (prop j "password")) w1
      = (w2, Rejected e) ->
      In ("error:modifyDBCluster",
          [LText "ERROR in modify password in RDS."; LError e]) (logs r)
      /\ exists host user port timeout connected,
          map seen (calls r)
          = [(GetSecretValue (secretsmanager_name config) (Some token), true);
             (ModifyDBCluster "phat-cluster" true (prop j "password"), false);
             (CreateConnection host user (prop j "password") port timeout,
              connected)].
Proof.
  intros Hget [Hstring Hj]. unfold setSecret. simpl.
  rewrite Hget. simpl. rewrite (JSON_parse_parsed _ _ Hstring). simpl.
  rewrite (get_prop_value j "password" Hj). simpl.
  answered env w1; [destruct a | ].
  - answered env w0.
    all: split; [reflexivity | intros w' e' He; discriminate].
  - answered env w0.
    all: split; [reflexivity | intros w' e' He; inversion He; subst].
    all: split; [simpl; auto | repeat eexists].
Qed.

Lemma setSecret_logs_apply_failure_witness :
  let r := run aws (setSecret db_cred "t2") world1_down in
  result r = Resolved tt
  /\ forall w2 e,
      aws (ModifyDBCluster "phat-cluster" true (Some (JStr "new1")))
        world1_down = (w2, Rejected e) ->
      In ("error:modifyDBCluster",
          [LText "ERROR in modify password in RDS."; LError e]) (logs r)
      /\ exists host user port timeout connected,
          map seen (calls r)
          = [(GetSecretValue "db-cred" (Some "t2"), true);
             (ModifyDBCluster "phat-cluster" true (Some (JStr "new1")),
              false);
             (CreateConnection host user (Some (JStr "new1")) port timeout,
              connected)].
Proof.
  apply (setSecret_logs_apply_failure aws db_cred "t2" world1_down
           world1_down
           {| SecretString := Some (Stringified (payload "new1"));
              VersionId := "t2"; VersionStages := ["AWSPENDING"] |}
           (read (payload "new1"))).
  - reflexivity.
  - split; [reflexivity | discriminate].
Defined.

(** C7, counterexamples to the statement of the spec.  When the generator
    hands out the password that is already in use, the PENDING version is
    written with the very password of the CURRENT version.  When the port
    of the CURRENT payload is spelled 1e999, [JSON.parse] reads an
    infinity, [JSON.stringify] prints [null], and the PENDING version is
    written with another port. *)
Lemma createSecret_payload_not_framed :
  (let r := run aws (createSecret db_cred "t2") world_repeat in
   ~ (forall v d, lookup "t2" (versions (world r)) = Some v ->
                  content v = Stringified d ->
                  member d "password" <> member (payload secret0) "password"))
  /\ (let r := run aws (createSecret db_cred "t2") world_overflow in
      ~ (forall v d, lookup "t2" (versions (world r)) = Some v ->
                     content v = Stringified d ->
                     member d "port" = member overflowing "port")).
Proof.
  split.
  - intros r H.
    apply (H {| content := Stringified (payload secret0);
                stages := ["AWSPENDING"] |} (payload secret0));
      reflexivity.
  - intros r H.
    specialize (H {| content :=
                       Stringified
                         (DObj [("username", DStr "app");
                                ("password", DStr "new1");
                                ("host", DStr "h"); ("port", DNull)]);
                     stages := ["AWSPENDING"] |} _ eq_refl eq_refl).
    discriminate H.
Qed.

(** C7, as the code has it.  The payload [createSecret] puts under the
    token has the password the generator returned, and every other field
    of the CURRENT payload as [JSON.stringify] prints what [JSON.parse]
    read of it.  A field that is a string is written as it was, and so is
    every field that is rewritten as it is: one whose numbers print back
    as they are spelled. *)
Theorem createSecret_changes_only_password {W : Type} (env : Env W)
    (config : Config) (token : string) (w wa wb wc wd : W)
    (current : GetSecretValueResponse) (fields : list (string * document))
    (metadata : DescribeSecretResponse) (e : Error)
    (generated : GetRandomPasswordResponse) :
  env (GetSecretValue (secretsmanager_name config) None) w
  = (wa, Resolved current) ->
  SecretString current = Some (Stringified (DObj fields)) ->
  env (DescribeSecret (secretsmanager_name config)) wa
  = (wb, Resolved metadata) ->
  env (GetSecretValue (secretsmanager_name config) (Some token)) wb
  = (wc, Rejected e) ->
  env (GetRandomPassword excluded) wc = (wd, Resolved generated) ->
  let r := run env (createSecret config token) w in
  exists d,
    map call (calls r) = createSecret_calls config token (Stringified d)
    /\ member d "password" = Some (DStr (RandomPassword generated))
    /\ (forall k, k <> "password" ->
                  member d k
                  = option_map rewritten (member (DObj fields) k))
    /\ (forall k s, k <> "password" ->
                    member (DObj fields) k = Some (DStr s) ->
                    member d k = Some (DStr s))
    /\ (forall k v, k <> "password" ->
                    member (DObj fields) k = Some v ->
                    stable v = true -> member d k = Some v).
Proof.
  intros Hcurrent Hstring Hdescribe Htoken Hrandom.
  assert (Hparsed : parsed (SecretString current) = Some (read (DObj fields)))
    by (rewrite Hstring; reflexivity).
  assert (Hj : read (DObj fields) <> JNull) by discriminate.
  destruct (createSecret_puts env config token w wa wb wc wd current
              _ metadata e generated Hcurrent Hparsed Hj
              Hdescribe Htoken Hrandom) as [Hcalls _].
  set (l := set_field "password" (JStr (RandomPassword generated))
              (properties fields [])).
  assert (Hl : NoDup (map fst l)).
  { apply NoDup_set_field. apply NoDup_properties. constructor. }
  assert (Hother : forall k, k <> "password" ->
            member (print (JObj l)) k
            = option_map rewritten (member (DObj fields) k)).
  { intros k Hk. rewrite (member_print k l Hl). unfold l.
    rewrite lookup_set_field_other by exact Hk.
    rewrite lookup_properties. simpl.
    destruct (lookup_last k fields); reflexivity. }
  exists (print (JObj l)).
  split; [exact Hcalls | ]. split; [ | split; [ | split]].
  - rewrite (member_print "password" l Hl). unfold l.
    rewrite lookup_set_field_same. reflexivity.
  - exact Hother.
  - intros k s Hk Hs. rewrite (Hother k Hk), Hs. reflexivity.
  - intros k v Hk Hv Hstable. rewrite (Hother k Hk), Hv. simpl.
    rewrite (rewritten_stable v Hstable). reflexivity.
Qed.

Lemma createSecret_changes_only_password_witness :
  let r := run aws (createSecret db_cred "t2") world0 in
  let fields := [("username", DStr "app"); ("password", DStr "old");
                 ("host", DStr "h"); ("port", DNum 3306)] in
  exists d,
    map call (calls r) = createSecret_calls db_cred "t2" (Stringified d)
    /\ member d "password" = Some (DStr "new1")
    /\ (forall k, k <> "password" ->
                  member d k
                  = option_map rewritten (member (DObj fields) k))
    /\ (forall k s, k <> "password" ->
                    member (DObj fields) k = Some (DStr s) ->
                    member d k = Some (DStr s))
    /\ (forall k v, k <> "password" ->
                    member (DObj fields) k = Some v ->
                    stable v = true -> member d k = Some v).
Proof.
  apply (createSecret_changes_only_password aws db_cred "t2" world0
           world0 world0 world0
           {| secret_name := "db-cred"; versions := [("v1", v1)];
              random := ["new2"]; target := database "old" |}
           {| SecretString := Some (Stringified (payload "old"));
              VersionId := "v1"; VersionStages := ["AWSCURRENT"] |}
           [("username", DStr "app"); ("password", DStr "old");
            ("host", DStr "h"); ("port", DNum 3306)]
           {| VersionIdsToStages := Some [("v1", ["AWSCURRENT"])] |}
           (ServiceError "ResourceNotFoundException")
           {| RandomPassword := "new1" |}).
  - reflexivity.
  - reflexivity.
  - reflexivity.
  - reflexivity.
  - reflexivity.
Defined.

(** C8.  In an environment where reading a secret value and opening a
    connection leave the world as it is, any number of invocations of
    [testSecret] leaves the world (store and target) as it is, and so does
    every call made on the way. *)
Theorem testSecret_non_destructive {W : Type} (env : Env W) (config : Config)
    (Hget : forall id v, read_only env (GetSecretValue id v))
    (Hconnect : forall host user password port timeout,
        read_only env (CreateConnection host user password port timeout))
    (token : string) (n : nat) (w : W) :
  repeatedly env (testSecret config token) n w = w
  /\ Forall (fun m => after m = w)
       (calls (run env (testSecret config token) w)).
Proof.
  assert (Hro : only (read_only env) (testSecret config token)).
  { apply only_weaken with (P := is_probe).
    - intros [ | | | | | | ]; simpl; intros Hc; solve [contradiction | auto].
    - apply testSecret_only_probes. }
  destruct (run_only_read_only env _ Hro w) as [Hw Hcalls].
  split; [apply repeatedly_fixed; exact Hw | exact Hcalls].
Qed.

Lemma testSecret_non_destructive_witness :
  (forall id v, read_only aws (GetSecretValue id v))
  /\ (forall host user password port timeout,
        read_only aws (CreateConnection host user password port timeout))
  /\ repeatedly aws (testSecret db_cred "t2") 3 world1 = world1
  /\ Forall (fun m => after m = world1)
       (calls (run aws (testSecret db_cred "t2") world1)).
Proof.
  assert (H1 : forall id v, read_only aws (GetSecretValue id v))
    by (intros id v w; reflexivity).
  assert (H2 : forall host user password port timeout,
             read_only aws (CreateConnection host user password port timeout))
    by (intros host user password port timeout w; reflexivity).
  split; [exact H1 | split; [exact H2 | ]].
  exact (testSecret_non_destructive aws db_cred H1 H2 "t2" 3 world1).
Defined.

(** C9.  A request whose step is none of createSecret, setSecret,
    testSecret, finishSecret: the handler returns normally and makes no
    call at all. *)
Theorem handler_unknown_step_is_noop {W : Type} (env : Env W)
    (config : Config) (event : Event) (w : W) :
  (forall s, In s known_steps -> Step event <> Some (JStr s)) ->
  let r := run env (handler config event) w in
  world r = w /\ calls r = [] /\ result r = Resolved tt.
Proof.
  intros Hstep. unfold handler. simpl.
  rewrite !strict_eq_false by (apply Hstep; simpl; auto).
  simpl. repeat split.
Qed.

Lemma handler_unknown_step_is_noop_witness :
  let r := run aws (handler db_cred (request "deleteSecret" "t2")) world1 in
  world r = world1 /\ calls r = [] /\ result r = Resolved tt.
Proof.
  apply (handler_unknown_step_is_noop aws db_cred
           (request "deleteSecret" "t2") world1).
  simpl. intros s [H | [H | [H | [H | []]]]]; subst s; discriminate.
Defined.

(** C10.  Two requests with the same step and the same token, whatever
    their SecretId: the handler makes the same calls, leaves the same
    world and gives the same result.  (Only the log differs: line 19 logs
    the whole event.) *)
Theorem handler_independent_of_SecretId {W : Type} (env : Env W)
    (config : Config) (e1 e2 : Event) (w : W) :
  Step e1 = Step e2 ->
  ClientRequestToken e1 = ClientRequestToken e2 ->
  let r1 := run env (handler config e1) w in
  let r2 := run env (handler config e2) w in
  world r1 = world r2 /\ calls r1 = calls r2 /\ result r1 = result r2.
Proof.
  intros Hstep Htoken. unfold handler. simpl.
  rewrite Hstep, Htoken. repeat split.
Qed.

Lemma handler_independent_of_SecretId_witness :
  let e1 := {| Step := Some (JStr "createSecret");
               ClientRequestToken := "t2"; SecretId := "db-cred" |} in
  let e2 := {| Step := Some (JStr "createSecret");
               ClientRequestToken := "t2"; SecretId := "another-secret" |} in
  let r1 := run aws (handler db_cred e1) world0 in
  let r2 := run aws (handler db_cred e2) world0 in
  world r1 = world r2 /\ calls r1 = calls r2 /\ result r1 = result r2.
Proof.
  intros e1 e2.
  apply (handler_independent_of_SecretId aws db_cred e1 e2 world0);
    reflexivity.
Defined.

(** * Further properties of the handler *)

Lemma only_set_prop (P : Call -> Prop) (o : json) (k : string) (v : json) :
  only P (set_prop o k v).
Proof. destruct o; constructor. Qed.

Lemma run_only_calls {W A : Type} (env : Env W) (P : Call -> Prop)
    (p : Prog A) :
  only P p -> forall w, Forall (fun m => P (call m)) (calls (run env p w)).
Proof.
  induction 1 as [a | e | tag args k _ IH | c k Hc _ IH]; intros w; simpl.
  - constructor.
  - constructor.
  - apply IH.
  - destruct (env c w) as [w' o]. simpl.
    constructor; [exact Hc | apply IH].
Qed.

(** Discarding the value a program returns changes nothing else. *)
Lemma run_discard {W A : Type} (env : Env W) (p : Prog A) (w : W) :
  same_outcome (run env (bind p (fun _ => Ret tt)) w) (run env p w).
Proof.
  revert w. induction p as [a | e | tag args k IH | c k IH]; intros w.
  - repeat split; simpl; intros H; discriminate H.
  - repeat split; simpl; intros H; inversion H; reflexivity.
  - destruct (IH w) as [Hw [Hc Hr]]. repeat split; simpl; try assumption;
      apply Hr.
  - simpl. destruct (env c w) as [w' o]. destruct (IH o w') as [Hw [Hc Hr]].
    repeat split; simpl; try assumption; try apply Hr.
    rewrite Hc. reflexivity.
Qed.

Ltac only_step :=
  first
    [ apply only_bind; [ | intros ? ]
    | apply only_try_catch; [ | intros ? ]
    | apply only_await; exact I
    | apply only_log
    | apply only_JSON_parse
    | apply only_get_prop
    | apply only_set_prop
    | apply only_Ret
    | apply only_Throw ].

Lemma createSecret_only (config : Config) (token : string) :
  only createSecret_may_call (createSecret config token).
Proof. unfold createSecret. repeat only_step. Qed.

Lemma setSecret_only (config : Config) (token : string) :
  only setSecret_may_call (setSecret config token).
Proof. unfold setSecret. repeat only_step. Qed.

Lemma finishSecret_only (config : Config) (token : string) :
  only finishSecret_may_call (finishSecret config token).
Proof.
  unfold finishSecret. repeat only_step.
  destruct (VersionIdsToStages _); constructor.
Qed.

(** X1.  The handler routes each of the four step names to its function,
    with the token of the event: it makes the same calls, leaves the same
    world and fails with the same error as that function. *)
Theorem handler_dispatches {W : Type} (env : Env W) (config : Config)
    (event : Event) (w : W) :
  let r := run env (handler config event) w in
  let token := ClientRequestToken event in
  (Step event = Some (JStr "createSecret") ->
   same_outcome r (run env (createSecret config token) w))
  /\ (Step event = Some (JStr "setSecret") ->
      same_outcome r (run env (setSecret config token) w))
  /\ (Step event = Some (JStr "testSecret") ->
      same_outcome r (run env (testSecret config token) w))
  /\ (Step event = Some (JStr "finishSecret") ->
      same_outcome r (run env (finishSecret config token) w)).
Proof.
  unfold handler.
  generalize (createSecret config (ClientRequestToken event)),
    (setSecret config (ClientRequestToken event)),
    (testSecret config (ClientRequestToken event)),
    (finishSecret config (ClientRequestToken event)).
  intros create set test finish. simpl.
  split; [ | split; [ | split]]; intros Hstep; rewrite Hstep; simpl.
  - destruct (run_discard env create w) as [Hw [Hc Hr]].
    repeat split; simpl; try assumption; apply Hr.
  - destruct (run_discard env set w) as [Hw [Hc Hr]].
    repeat split; simpl; try assumption; apply Hr.
  - repeat split; auto.
  - repeat split; auto.
Qed.

Lemma handler_dispatches_witness :
  same_outcome (run aws (handler db_cred (request "finishSecret" "t2")) world1)
    (run aws (finishSecret db_cred "t2") world1).
Proof.
  apply (handler_dispatches aws db_cred (request "finishSecret" "t2") world1).
  reflexivity.
Defined.

(** X2.  Whatever the services answer, [createSecret] only reads secret
    values and metadata, asks for a random password and puts a secret
    value: it never touches the database and never moves a label with
    updateSecretVersionStage. *)
Theorem createSecret_calls_store_only {W : Type} (env : Env W)
    (config : Config) (token : string) (w : W) :
  Forall (fun m => createSecret_may_call (call m))
    (calls (run env (createSecret config token) w)).
Proof.
  apply run_only_calls. apply createSecret_only.
Qed.

(** X3.  Whatever the services answer, [setSecret] only reads a secret
    value, changes the cluster password and opens a connection: it never
    writes to the secret store. *)
Theorem setSecret_never_writes_store {W : Type} (env : Env W)
    (config : Config) (token : string) (w : W) :
  Forall (fun m => setSecret_may_call (call m))
    (calls (run env (setSecret config token) w)).
Proof.
  apply run_only_calls. apply setSecret_only.
Qed.

(** X4.  Whatever the services answer, [finishSecret] only describes the
    secret and moves a label: it never reads or writes a secret value and
    never touches the database. *)
Theorem finishSecret_calls_labels_only {W : Type} (env : Env W)
    (config : Config) (token : string) (w : W) :
  Forall (fun m => finishSecret_may_call (call m))
    (calls (run env (finishSecret config token) w)).
Proof.
  apply run_only_calls. apply finishSecret_only.
Qed.

(** X5.  When the CURRENT version cannot be read, [createSecret] fails
    with the error of the store; it has made that one call and nothing
    else: nothing is generated and nothing is written. *)
Theorem createSecret_without_current {W : Type} (env : Env W)
    (config : Config) (token : string) (w wa : W) (e : Error) :
  env (GetSecretValue (secretsmanager_name config) None) w
  = (wa, Rejected e) ->
  let r := run env (createSecret config token) w in
  result r = Rejected e
  /\ world r = wa
  /\ map call (calls r) = [GetSecretValue (secretsmanager_name config) None].
Proof.
  intros Hcurrent. unfold createSecret. simpl. rewrite Hcurrent. simpl.
  repeat split.
Qed.

Lemma createSecret_without_current_witness :
  let r := run aws (createSecret db_cred "t2") world_no_current in
  result r = Rejected (ServiceError "ResourceNotFoundException")
  /\ world r = world_no_current
  /\ map call (calls r) = [GetSecretValue "db-cred" None].
Proof.
  apply (createSecret_without_current aws db_cred "t2" world_no_current
           world_no_current (ServiceError "ResourceNotFoundException")).
  reflexivity.
Defined.

(** X6.  When the CURRENT version has no SecretString, or one that does
    not parse, or one that parses to [null], [createSecret] fails with a
    SyntaxError or a TypeError right after reading it: nothing is
    described, generated or written. *)
Theorem createSecret_unusable_payload {W : Type} (env : Env W)
    (config : Config) (token : string) (w wa : W)
    (current : GetSecretValueResponse) :
  env (GetSecretValue (secretsmanager_name config) None) w
  = (wa, Resolved current) ->
  (forall j, ~ parses_to (SecretString current) j) ->
  let r := run env (createSecret config token) w in
  (result r = Rejected SyntaxError \/ result r = Rejected TypeError)
  /\ world r = wa
  /\ map call (calls r) = [GetSecretValue (secretsmanager_name config) None].
Proof.
  intros Hcurrent Hbad. unfold createSecret. simpl. rewrite Hcurrent. simpl.
  destruct (SecretString current) as [[j | u] | ]; simpl.
  - destruct j; simpl;
      try (exfalso; eapply Hbad; split; [reflexivity | discriminate]).
    repeat split. right. reflexivity.
  - repeat split. left. reflexivity.
  - repeat split. left. reflexivity.
Qed.

Lemma createSecret_unusable_payload_witness :
  let w := {| secret_name := "db-cred";
              versions := [("v1", {| content := Unparsable "not json";
                                     stages := ["AWSCURRENT"] |})];
              random := ["new1"]; target := database "old" |} in
  let r := run aws (createSecret db_cred "t2") w in
  (result r = Rejected SyntaxError \/ result r = Rejected TypeError)
  /\ world r = w
  /\ map call (calls r) = [GetSecretValue "db-cred" None].
Proof.
  intros w.
  apply (createSecret_unusable_payload aws db_cred "t2" w w
           {| SecretString := Some (Unparsable "not json");
              VersionId := "v1"; VersionStages := ["AWSCURRENT"] |}).
  - reflexivity.
  - intros j [H _]. discriminate H.
Defined.

(** X7.  When a version can be read for the token, [createSecret] stops
    after its three reads: no password is generated, nothing is put, and
    it returns undefined. *)
Theorem createSecret_keeps_existing_version {W : Type} (env : Env W)
    (config : Config) (token : string) (w wa wb wc : W)
    (current : GetSecretValueResponse) (j : json)
    (metadata : DescribeSecretResponse) (found : GetSecretValueResponse) :
  env (GetSecretValue (secretsmanager_name config) None) w
  = (wa, Resolved current) ->
  parses_to (SecretString current) j ->
  env (DescribeSecret (secretsmanager_name config)) wa
  = (wb, Resolved metadata) ->
  env (GetSecretValue (secretsmanager_name config) (Some token)) wb
  = (wc, Resolved found) ->
  let r := run env (createSecret config token) w in
  result r = Resolved None
  /\ world r = wc
  /\ map call (calls r)
     = [GetSecretValue (secretsmanager_name config) None;
        DescribeSecret (secretsmanager_name config);
        GetSecretValue (secretsmanager_name config) (Some token)].
Proof.
  intros Hcurrent [Hstring Hj] Hdescribe Htoken.
  unfold createSecret. simpl.
  rewrite Hcurrent. simpl. rewrite (JSON_parse_parsed _ _ Hstring).
  simpl.
  rewrite (get_prop_value j "password" Hj). simpl.
  rewrite Hdescribe. simpl. rewrite Htoken. simpl.
  repeat split.
Qed.

Lemma createSecret_keeps_existing_version_witness :
  let r := run aws (createSecret db_cred "t2") world1 in
  result r = Resolved None
  /\ world r = world1
  /\ map call (calls r)
     = [GetSecretValue "db-cred" None; DescribeSecret "db-cred";
        GetSecretValue "db-cred" (Some "t2")].
Proof.
  apply (createSecret_keeps_existing_version aws db_cred "t2" world1 world1
           world1 world1
           {| SecretString := Some (Stringified (payload "old"));
              VersionId := "v1"; VersionStages := ["AWSCURRENT"] |}
           (read (payload "old"))
           {| VersionIdsToStages :=
                Some [("v1", ["AWSCURRENT"]); ("t2", ["AWSPENDING"])] |}
           {| SecretString := Some (Stringified (payload "new1"));
              VersionId := "t2"; VersionStages := ["AWSPENDING"] |}).
  - reflexivity.
  - split; [reflexivity | discriminate].
  - reflexivity.
  - reflexivity.
Defined.

(** X8.  When no version can be read for the token and the password
    generator fails, the error is thrown from inside the catch block and
    [createSecret] fails with it; nothing has been put. *)
Theorem createSecret_generator_failure {W : Type} (env : Env W)
    (config : Config) (token : string) (w wa wb wc wd : W)
    (current : GetSecretValueResponse) (j : json)
    (metadata : DescribeSecretResponse) (e e' : Error) :
  env (GetSecretValue (secretsmanager_name config) None) w
  = (wa, Resolved current) ->
  parses_to (SecretString current) j ->
  env (DescribeSecret (secretsmanager_name config)) wa
  = (wb, Resolved metadata) ->
  env (GetSecretValue (secretsmanager_name config) (Some token)) wb
  = (wc, Rejected e) ->
  env (GetRandomPassword excluded) wc = (wd, Rejected e') ->
  let r := run env (createSecret config token) w in
  result r = Rejected e'
  /\ world r = wd
  /\ map call (calls r)
     = [GetSecretValue (secretsmanager_name config) None;
        DescribeSecret (secretsmanager_name config);
        GetSecretValue (secretsmanager_name config) (Some token);
        GetRandomPassword excluded].
Proof.
  intros Hcurrent [Hstring Hj] Hdescribe Htoken Hrandom.
  unfold createSecret. simpl.
  rewrite Hcurrent. simpl. rewrite (JSON_parse_parsed _ _ Hstring).
  simpl.
  rewrite (get_prop_value j "password" Hj). simpl.
  rewrite Hdescribe. simpl. rewrite Htoken. simpl. rewrite Hrandom. simpl.
  repeat split.
Qed.

Lemma createSecret_generator_failure_witness :
  let w := {| secret_name := "db-cred"; versions := [("v1", v1)];
              random := []; target := database "old" |} in
  let r := run aws (createSecret db_cred "t2") w in
  result r = Rejected (ServiceError "InternalServiceError")
  /\ world r = w
  /\ map call (calls r)
     = [GetSecretValue "db-cred" None; DescribeSecret "db-cred";
        GetSecretValue "db-cred" (Some "t2"); GetRandomPassword excluded].
Proof.
  intros w.
  apply (createSecret_generator_failure aws db_cred "t2" w w w w w
           {| SecretString := Some (Stringified (payload "old"));
              VersionId := "v1"; VersionStages := ["AWSCURRENT"] |}
           (read (payload "old"))
           {| VersionIdsToStages := Some [("v1", ["AWSCURRENT"])] |}
           (ServiceError "ResourceNotFoundException")
           (ServiceError "InternalServiceError")).
  - reflexivity.
  - split; [reflexivity | discriminate].
  - reflexivity.
  - reflexivity.
  - reflexivity.
Defined.

(** X9.  When the store rejects the put, [createSecret] logs the error
    under error:createSecret and returns undefined, the very value it
    returns when the version was already there. *)
Theorem createSecret_put_failure_is_logged {W : Type} (env : Env W)
    (config : Config) (token : string) (w wa wb wc wd we : W)
    (current : GetSecretValueResponse) (j : json)
    (metadata : DescribeSecretResponse) (e e' : Error)
    (generated : GetRandomPasswordResponse) :
  env (GetSecretValue (secretsmanager_name config) None) w
  = (wa, Resolved current) ->
  parses_to (SecretString current) j ->
  env (DescribeSecret (secretsmanager_name config)) wa
  = (wb, Resolved metadata) ->
  env (GetSecretValue (secretsmanager_name config) (Some token)) wb
  = (wc, Rejected e) ->
  env (GetRandomPassword excluded) wc = (wd, Resolved generated) ->
  env (PutSecretValue (secretsmanager_name config) token
         (JSON_stringify
            (assign j "password" (JStr (RandomPassword generated))))
         ["AWSPENDING"]) wd
  = (we, Rejected e') ->
  let r := run env (createSecret config token) w in
  result r = Resolved None
  /\ world r = we
  /\ In ("error:createSecret",
         [LText "ERROR in put secret for ARN and version."; LError e'])
        (logs r).
Proof.
  intros Hcurrent [Hstring Hj] Hdescribe Htoken Hrandom Hput.
  unfold createSecret. simpl.
  rewrite Hcurrent. simpl. rewrite (JSON_parse_parsed _ _ Hstring).
  simpl.
  rewrite (get_prop_value j "password" Hj). simpl.
  rewrite Hdescribe. simpl. rewrite Htoken. simpl. rewrite Hrandom. simpl.
  rewrite (set_prop_value j "password" _ Hj). simpl.
  unfold JSON_stringify in Hput |- *. rewrite Hput. simpl.
  repeat split. simpl. repeat (first [left; reflexivity | right]).
Qed.

Lemma createSecret_put_failure_is_logged_witness :
  let r := run aws_denied (createSecret db_cred "t2") world0 in
  result r = Resolved None
  /\ world r = {| secret_name := "db-cred"; versions := [("v1", v1)];
                  random := ["new2"]; target := database "old" |}
  /\ In ("error:createSecret",
         [LText "ERROR in put secret for ARN and version.";
          LError (ServiceError "AccessDeniedException")])
        (logs r).
Proof.
  apply (createSecret_put_failure_is_logged aws_denied db_cred "t2" world0
           world0 world0 world0
           {| secret_name := "db-cred"; versions := [("v1", v1)];
              random := ["new2"]; target := database "old" |}
           {| secret_name := "db-cred"; versions := [("v1", v1)];
              random := ["new2"]; target := database "old" |}
           {| SecretString := Some (Stringified (payload "old"));
              VersionId := "v1"; VersionStages := ["AWSCURRENT"] |}
           (read (payload "old"))
           {| VersionIdsToStages := Some [("v1", ["AWSCURRENT"])] |}
           (ServiceError "ResourceNotFoundException")
           (ServiceError "AccessDeniedException")
           {| RandomPassword := "new1" |}).
  - reflexivity.
  - split; [reflexivity | discriminate].
  - reflexivity.
  - reflexivity.
  - reflexivity.
  - reflexivity.
Defined.

(** X10.  When the PENDING version cannot be read, or its SecretString
    does not parse to something other than [null], [setSecret] fails
    after that one read: the database is not touched. *)
Theorem setSecret_fails_before_database {W : Type} (env : Env W)
    (config : Config) (token : string) (w w1 : W)
    (o : Outcome GetSecretValueResponse) :
  env (GetSecretValue (secretsmanager_name config) (Some token)) w
  = (w1, o) ->
  (forall pending j, o = Resolved pending ->
                     ~ parses_to (SecretString pending) j) ->
  let r := run env (setSecret config token) w in
  (exists e, result r = Rejected e)
  /\ (forall e, o = Rejected e -> result r = Rejected e)
  /\ world r = w1
  /\ map call (calls r)
     = [GetSecretValue (secretsmanager_name config) (Some token)].
Proof.
  intros Hget Hbad. unfold setSecret. simpl. rewrite Hget. simpl.
  destruct o as [pending | e]; simpl.
  - specialize (Hbad pending).
    destruct (SecretString pending) as [[j | u] | ]; simpl.
    + destruct j; simpl;
        try (exfalso; eapply Hbad;
             [reflexivity | split; [reflexivity | discriminate]]).
      repeat split; [eexists; reflexivity | intros e He; discriminate].
    + repeat split; [eexists; reflexivity | intros e He; discriminate].
    + repeat split; [eexists; reflexivity | intros e He; discriminate].
  - repeat split; [eexists; reflexivity | ].
    intros e' He. inversion He. reflexivity.
Qed.

Lemma setSecret_fails_before_database_witness :
  let r := run aws (setSecret db_cred "t2") world0 in
  (exists e, result r = Rejected e)
  /\ (forall e, @not_found GetSecretValueResponse = Rejected e ->
                result r = Rejected e)
  /\ world r = world0
  /\ map call (calls r) = [GetSecretValue "db-cred" (Some "t2")].
Proof.
  apply (setSecret_fails_before_database aws db_cred "t2" world0 world0
           not_found).
  - reflexivity.
  - intros pending j H. discriminate H.
Defined.



(** X12.  [getConnection] never throws: it returns the connection when
    the connection attempt is fulfilled and [null] otherwise, and it makes
    no call at all on a [null] secret. *)
Theorem getConnection_returns {W : Type} (env : Env W) (o : json) (w : W) :
  let r := run env (getConnection o) w in
  result r
  = Resolved (if existsb fulfilled (calls r) then Some Connected else None)
  /\ (o = JNull -> calls r = []).
Proof.
  unfold getConnection. simpl.
  destruct o; simpl; try (split; [reflexivity | intros; reflexivity]).
  all: answered env w; [destruct a | ];
    (split; [reflexivity | intros H; discriminate H]).
Qed.



(** X14.  When the PENDING version cannot be read, [testSecret] logs the
    error under error:testSecret and returns normally without attempting
    any connection. *)
Theorem testSecret_unreadable_version {W : Type} (env : Env W)
    (config : Config) (token : string) (w w1 : W) (e : Error) :
  env (GetSecretValue (secretsmanager_name config) (Some token)) w
  = (w1, Rejected e) ->
  let r := run env (testSecret config token) w in
  result r = Resolved tt
  /\ map call (calls r)
     = [GetSecretValue (secretsmanager_name config) (Some token)]
  /\ logs r = [("error:testSecret",
                [LText "Error in connecting to secretsManger"; LError e])].
Proof.
  intros Hget. unfold testSecret. simpl. rewrite Hget. simpl.
  repeat split.
Qed.

Lemma testSecret_unreadable_version_witness :
  let r := run aws (testSecret db_cred "t2") world0 in
  result r = Resolved tt
  /\ map call (calls r) = [GetSecretValue "db-cred" (Some "t2")]
  /\ logs r = [("error:testSecret",
                [LText "Error in connecting to secretsManger";
                 LError (ServiceError "ResourceNotFoundException")])].
Proof.
  apply (testSecret_unreadable_version aws db_cred "t2" world0 world0
           (ServiceError "ResourceNotFoundException")).
  reflexivity.
Defined.

(** X15.  When describeSecret is rejected, or its response carries no
    VersionIdsToStages, [finishSecret] fails (with the store's error, or a
    TypeError) after that one call: no label is moved. *)
Theorem finishSecret_fails_before_promotion {W : Type} (env : Env W)
    (config : Config) (token : string) (w w1 : W)
    (o : Outcome DescribeSecretResponse) :
  env (DescribeSecret (secretsmanager_name config)) w = (w1, o) ->
  (forall metadata, o = Resolved metadata ->
                    VersionIdsToStages metadata = None) ->
  let r := run env (finishSecret config token) w in
  (forall e, o = Rejected e -> result r = Rejected e)
  /\ (forall metadata, o = Resolved metadata -> result r = Rejected TypeError)
  /\ world r = w1
  /\ map call (calls r) = [DescribeSecret (secretsmanager_name config)].
Proof.
  intros Hdescribe Hnone. unfold finishSecret. simpl.
  rewrite Hdescribe. simpl. destruct o as [metadata | e]; simpl.
  - rewrite (Hnone metadata eq_refl). simpl.
    repeat split. intros e He. discriminate He.
  - repeat split.
    + intros e' He. inversion He. reflexivity.
    + intros metadata He. discriminate He.
Qed.

Lemma finishSecret_fails_before_promotion_witness :
  let w := {| secret_name := "another-secret"; versions := [("v1", v1)];
              random := []; target := database "old" |} in
  let r := run aws (finishSecret db_cred "t2") w in
  (forall e, @not_found DescribeSecretResponse = Rejected e ->
             result r = Rejected e)
  /\ (forall metadata, @not_found DescribeSecretResponse = Resolved metadata ->
                       result r = Rejected TypeError)
  /\ world r = w
  /\ map call (calls r) = [DescribeSecret "db-cred"].
Proof.
  intros w.
  apply (finishSecret_fails_before_promotion aws db_cred "t2" w w not_found).
  - reflexivity.
  - intros metadata H. discriminate H.
Defined.

(** X16.  [finishSecret] can fail after the promotion: when the label move
    is accepted and the describeSecret that follows it is rejected, the
    step fails with that error although the store has moved the label. *)
Theorem finishSecret_can_fail_after_promotion {W : Type} (env : Env W)
    (config : Config) (token : string) (w w1 w2 w3 : W)
    (metadata : DescribeSecretResponse)
    (entries : list (string * list string)) (e : Error) :
  env (DescribeSecret (secretsmanager_name config)) w
  = (w1, Resolved metadata) ->
  VersionIdsToStages metadata = Some entries ->
  env (UpdateSecretVersionStage (secretsmanager_name config) "AWSCURRENT"
         token (curretVersion_of entries)) w1 = (w2, Resolved tt) ->
  env (DescribeSecret (secretsmanager_name config)) w2 = (w3, Rejected e) ->
  let r := run env (finishSecret config token) w in
  result r = Rejected e
  /\ world r = w3
  /\ map seen (calls r)
     = [(DescribeSecret (secretsmanager_name config), true);
        (UpdateSecretVersionStage (secretsmanager_name config) "AWSCURRENT"
           token (curretVersion_of entries), true);
        (DescribeSecret (secretsmanager_name config), false)].
Proof.
  intros Hdescribe Hentries Hupdate Hagain. unfold finishSecret. simpl.
  rewrite Hdescribe. simpl. rewrite Hentries. simpl.
  rewrite Hupdate. simpl. rewrite Hagain. simpl.
  repeat split.
Qed.

Lemma finishSecret_can_fail_after_promotion_witness :
  let r := run aws_for (finishSecret db_cred "t2") (world1, 2) in
  result r = Rejected (ServiceError "TimeoutError")
  /\ holders "AWSCURRENT" (versions (fst (world r))) = ["t2"]
  /\ map seen (calls r)
     = [(DescribeSecret "db-cred", true);
        (UpdateSecretVersionStage "db-cred" "AWSCURRENT" "t2" (Some "v1"),
         true);
        (DescribeSecret "db-cred", false)].
Proof.
  destruct (finishSecret_can_fail_after_promotion aws_for db_cred "t2"
              (world1, 2) (world1, 1)
              (fst (aws (UpdateSecretVersionStage "db-cred" "AWSCURRENT"
                           "t2" (Some "v1")) world1), 0)
              (fst (aws (UpdateSecretVersionStage "db-cred" "AWSCURRENT"
                           "t2" (Some "v1")) world1), 0)
              {| VersionIdsToStages :=
                   Some [("v1", ["AWSCURRENT"]); ("t2", ["AWSPENDING"])] |}
              [("v1", ["AWSCURRENT"]); ("t2", ["AWSPENDING"])]
              (ServiceError "TimeoutError")
              eq_refl eq_refl eq_refl eq_refl) as [Hresult [Hworld Hcalls]].
  split; [exact Hresult | split; [ | exact Hcalls]].
  rewrite Hworld. reflexivity.
Defined.

Lemma getConnection_returns_witness :
  let r := run aws (getConnection JNull) world1 in
  result r
  = Resolved (if existsb fulfilled (calls r) then Some Connected else None)
  /\ (JNull = JNull -> calls r = []).
Proof.
  exact (getConnection_returns aws JNull world1).
Defined.

Lemma first_is_hd (value : list string) (s : string) :
  first_is value s = true <-> hd_error value = Some s.
Proof.
  destruct value as [ | x l]; simpl.
  - split; discriminate.
  - rewrite String.eqb_eq. split; congruence.
Qed.

Lemma curretVersion_of_snoc (l : list (string * list string)) (k : string)
    (value : list string) :
  curretVersion_of (l ++ [(k, value)])
  = if first_is value "AWSCURRENT" then Some k else curretVersion_of l.
Proof.
  unfold curretVersion_of. rewrite fold_left_app. reflexivity.
Qed.

(** X17.  The loop of [finishSecret] finds no current version exactly when
    no listed version has AWSCURRENT as its first label; a version that
    lists AWSCURRENT after another label is not recognised. *)
Theorem curretVersion_of_none (entries : list (string * list string)) :
  curretVersion_of entries = None
  <-> forall k value, In (k, value) entries ->
                      hd_error value <> Some "AWSCURRENT".
Proof.
  induction entries as [ | [k0 value0] l IH] using rev_ind.
  - split; [intros _ k value [] | reflexivity].
  - rewrite curretVersion_of_snoc.
    destruct (first_is value0 "AWSCURRENT") eqn:Hfirst.
    + split; [discriminate | ]. intros Hall. exfalso.
      apply (Hall k0 value0).
      * apply in_or_app. right. left. reflexivity.
      * apply first_is_hd. exact Hfirst.
    + rewrite IH. split.
      * intros Hall k value Hin. apply in_app_or in Hin.
        destruct Hin as [Hin | [Heq | []]]; [exact (Hall k value Hin) | ].
        inversion Heq; subst. intros Hhd. apply first_is_hd in Hhd.
        congruence.
      * intros Hall k value Hin. apply (Hall k value).
        apply in_or_app. left. exact Hin.
Qed.

(** X18.  The loop of [finishSecret] yields the last listed version whose
    first label is AWSCURRENT. *)
Theorem curretVersion_of_last (entries : list (string * list string))
    (k : string) :
  curretVersion_of entries = Some k
  <-> exists before value after,
        entries = before ++ (k, value) :: after
        /\ hd_error value = Some "AWSCURRENT"
        /\ forall k' value', In (k', value') after ->
                             hd_error value' <> Some "AWSCURRENT".
Proof.
  induction entries as [ | [k0 value0] l IH] using rev_ind.
  - split; [discriminate | ].
    intros [before [value [after [Heq _]]]].
    destruct before; discriminate Heq.
  - rewrite curretVersion_of_snoc.
    destruct (first_is value0 "AWSCURRENT") eqn:Hfirst.
    + split.
      * intros Hk. inversion Hk; subst k0.
        exists l, value0, []. split; [reflexivity | split].
        -- apply first_is_hd. exact Hfirst.
        -- intros k' value' [].
      * intros [before [value [after [Heq [Hhd Hafter]]]]].
        destruct after as [ | x after'] using rev_ind.
        -- apply app_inj_tail in Heq. destruct Heq as [_ Heq].
           inversion Heq. reflexivity.
        -- clear IHafter'. exfalso.
           rewrite app_comm_cons, app_assoc in Heq.
           apply app_inj_tail in Heq. destruct Heq as [_ Heq]. subst x.
           apply (Hafter k0 value0).
           ++ apply in_or_app. right. left. reflexivity.
           ++ apply first_is_hd. exact Hfirst.
    + rewrite IH. split.
      * intros [before [value [after [Heq [Hhd Hafter]]]]].
        exists before, value, (after ++ [(k0, value0)]).
        split; [ | split; [exact Hhd | ]].
        -- rewrite Heq, <- app_assoc. reflexivity.
        -- intros k' value' Hin. apply in_app_or in Hin.
           destruct Hin as [Hin | [Heq' | []]];
             [exact (Hafter k' value' Hin) | ].
           inversion Heq'; subst. intros Hhd'. apply first_is_hd in Hhd'.
           congruence.
      * intros [before [value [after [Heq [Hhd Hafter]]]]].
        destruct after as [ | x after'] using rev_ind.
        -- apply app_inj_tail in Heq. destruct Heq as [_ Heq].
           inversion Heq; subst. apply first_is_hd in Hhd. congruence.
        -- clear IHafter'.
           rewrite app_comm_cons, app_assoc in Heq.
           apply app_inj_tail in Heq. destruct Heq as [Heq _].
           exists before, value, after'.
           split; [exact Heq | split; [exact Hhd | ]].
           intros k' value' Hin. apply (Hafter k' value').
           apply in_or_app. left. exact Hin.
Qed.

(** ** The steps on the reference world *)

(** What [setSecret] leaves of the reference world. *)
Lemma setSecret_world (config : Config) (token : string) (w : World) :
  exec (setSecret config token) w
  = match get_secret_value (secretsmanager_name config) (Some token) w with
    | Resolved pending =>
        match parsed (SecretString pending) with
        | Some JNull => w
        | Some j =>
            fst (modify_db_cluster "phat-cluster" (prop j "password") w)
        | None => w
        end
    | Rejected _ => w
    end.
Proof.
  unfold exec, setSecret. simpl.
  destruct (get_secret_value _ _ w) as [pending | e]; simpl;
    [ | reflexivity].
  destruct (SecretString pending) as [[d | u] | ]; simpl;
    [ | reflexivity | reflexivity].
  destruct (read d); simpl; try reflexivity.
  all: destruct (modify_db_cluster _ _ w) as [w' [[] | e]]; simpl;
    destruct (create_connection _ _ _ _ w'); reflexivity.
Qed.

Lemma get_secret_value_store (name : string) (vid : option string)
    (w w' : World) :
  secret_name w' = secret_name w -> versions w' = versions w ->
  get_secret_value name vid w' = get_secret_value name vid w.
Proof.
  intros Hname Hversions. unfold get_secret_value.
  rewrite Hname, Hversions. reflexivity.
Qed.

Lemma modify_db_cluster_store (cluster : string) (pw : JsValue) (w : World) :
  let w' := fst (modify_db_cluster cluster pw w) in
  secret_name w' = secret_name w /\ versions w' = versions w.
Proof.
  unfold modify_db_cluster.
  destruct (available (target w) && String.eqb cluster (cluster_id (target w)));
    [ | split; reflexivity].
  destruct pw as [[ | b | n | s | l | l] | ]; split; reflexivity.
Qed.

Lemma modify_db_cluster_twice (cluster : string) (pw : JsValue) (w : World) :
  fst (modify_db_cluster cluster pw (fst (modify_db_cluster cluster pw w)))
  = fst (modify_db_cluster cluster pw w).
Proof.
  unfold modify_db_cluster.
  destruct (available (target w) && String.eqb cluster (cluster_id (target w)))
    eqn:Hok; simpl.
  - destruct pw as [[ | b | n | s | l | l] | ]; simpl; rewrite ?Hok;
      reflexivity.
  - rewrite Hok. reflexivity.
Qed.

(** X19.  On the reference world [setSecret] is idempotent, for every
    world and token: a second invocation leaves the world as the first
    left it, and neither touches the secret store. *)
Theorem setSecret_idempotent (config : Config) (token : string) (w : World) :
  let w1 := exec (setSecret config token) w in
  exec (setSecret config token) w1 = w1
  /\ secret_name w1 = secret_name w
  /\ versions w1 = versions w.
Proof.
  intros w1. pose proof (setSecret_world config token w) as Hw1.
  fold w1 in Hw1. rewrite setSecret_world.
  destruct (get_secret_value _ _ w) as [pending | e] eqn:Hget.
  2:{ rewrite Hw1, Hget. repeat split. }
  destruct (parsed (SecretString pending)) as [j | ] eqn:Hstring.
  2: rewrite Hw1, Hget, Hstring; repeat split.
  destruct j.
  1: rewrite Hw1, Hget, Hstring; repeat split.
  all: match type of Hw1 with
       | _ = fst (modify_db_cluster ?c ?pw ?w0) =>
           destruct (modify_db_cluster_store c pw w0) as [Hname Hversions];
           rewrite <- Hw1 in Hname, Hversions;
           rewrite (get_secret_value_store _ _ w0 w1 Hname Hversions);
           rewrite Hget, Hstring;
           split; [ | split; assumption];
           rewrite Hw1; apply modify_db_cluster_twice
       end.
Qed.

Lemma content_add_stage (s : string) (v : Version) :
  content (add_stage s v) = content v.
Proof. reflexivity. Qed.

(** Moving a label keeps every version and its content. *)
Lemma lookup_move_content (s id k : string) (vs : list (string * Version))
    (v : Version) :
  lookup k vs = Some v ->
  exists v', lookup k (move s id vs) = Some v' /\ content v' = content v.
Proof.
  unfold move, attach, detach. rewrite map_map. simpl.
  induction vs as [ | [k' v0] vs IH]; simpl; [discriminate | ].
  destruct (String.eqb k' id) eqn:Hid; simpl;
    destruct (String.eqb k' k) eqn:Hk; try exact IH.
  - intros H. inversion H; subst. eexists. split; [reflexivity | ].
    rewrite content_add_stage. reflexivity.
  - intros H. inversion H; subst. eexists. split; reflexivity.
Qed.

(** The loop finds [c] when [c] is listed with AWSCURRENT first and no
    other version is. *)
Lemma curretVersion_of_unique (entries : list (string * list string))
    (c : string) :
  (exists value, In (c, value) entries /\ first_is value "AWSCURRENT" = true) ->
  (forall k value, In (k, value) entries ->
                   first_is value "AWSCURRENT" = true -> k = c) ->
  curretVersion_of entries = Some c.
Proof.
  induction entries as [ | [k0 value0] l IH] using rev_ind.
  - intros [value [[] _]].
  - intros [value [Hin Hfirst]] Hunique. rewrite curretVersion_of_snoc.
    destruct (first_is value0 "AWSCURRENT") eqn:Hfirst0.
    + f_equal. apply (Hunique k0 value0); [ | exact Hfirst0].
      apply in_or_app. right. left. reflexivity.
    + apply IH.
      * apply in_app_or in Hin. destruct Hin as [Hin | [Heq | []]].
        -- exists value. split; assumption.
        -- inversion Heq; subst. congruence.
      * intros k v Hk. apply Hunique. apply in_or_app. left. exact Hk.
Qed.

Lemma first_is_has_stage (v : Version) (s : string) :
  first_is (stages v) s = true -> has_stage s v = true.
Proof.
  unfold has_stage. destruct (stages v) as [ | x l]; simpl; [discriminate | ].
  intros H. apply String.eqb_eq in H. subst x.
  rewrite String.eqb_refl. reflexivity.
Qed.

(** On the reference store the loop of [finishSecret] finds the one CURRENT
    version when AWSCURRENT is its first label. *)
Lemma curretVersion_of_described (w : World) (c : string) (vc : Version) :
  holders "AWSCURRENT" (versions w) = [c] ->
  In (c, vc) (versions w) ->
  hd_error (stages vc) = Some "AWSCURRENT" ->
  curretVersion_of
    (map (fun e => (fst e, stages (snd e)))
       (filter (fun e => match stages (snd e) with
                         | [] => false
                         | _ :: _ => true
                         end) (versions w)))
  = Some c.
Proof.
  intros Hcur Hin Hhd. apply curretVersion_of_unique.
  - exists (stages vc). split.
    + apply in_map_iff. exists (c, vc). split; [reflexivity | ].
      apply filter_In. split; [exact Hin | ]. simpl.
      destruct (stages vc); [discriminate | reflexivity].
    + apply first_is_hd. exact Hhd.
  - intros k value Hk Hfirst. apply in_map_iff in Hk.
    destruct Hk as [[k' v] [Heq Hk]]. simpl in Heq. inversion Heq; subst.
    apply filter_In in Hk. destruct Hk as [Hk _].
    assert (Hholder : In k (holders "AWSCURRENT" (versions w))).
    { unfold holders. apply in_map_iff. exists (k, v).
      split; [reflexivity | ]. apply filter_In. split; [exact Hk | ].
      simpl. apply first_is_has_stage. exact Hfirst. }
    rewrite Hcur in Hholder. destruct Hholder as [Heq' | []]. congruence.
Qed.

(** On the reference store [finishSecret] succeeds when the one CURRENT
    version has AWSCURRENT as its first label and the token names another
    version. *)
Lemma finishSecret_resolves (config : Config) (w : World) (token c : string)
    (vc : Version) :
  secret_name w = secretsmanager_name config ->
  holders "AWSCURRENT" (versions w) = [c] ->
  In (c, vc) (versions w) ->
  hd_error (stages vc) = Some "AWSCURRENT" ->
  In token (map fst (versions w)) ->
  c <> token ->
  result (run aws (finishSecret config token) w) = Resolved tt.
Proof.
  intros Hname Hcur Hin Hhd Htoken Hne.
  unfold finishSecret. simpl. unfold describe_secret.
  rewrite Hname, String.eqb_refl. simpl.
  rewrite (curretVersion_of_described w c vc Hcur Hin Hhd).
  unfold update_secret_version_stage.
  rewrite Hname, String.eqb_refl, Hcur. simpl.
  apply mem_In in Htoken. rewrite Htoken. simpl.
  rewrite String.eqb_refl. simpl.
  destruct (String.eqb_spec c token) as [Heq | _]; [contradiction | ].
  simpl. unfold describe_secret. simpl.
  rewrite Hname, String.eqb_refl. reflexivity.
Qed.

Lemma testSecret_fixed (config : Config) (token : string) (w : World) :
  world (run aws (testSecret config token) w) = w.
Proof.
  apply run_only_read_only.
  apply only_weaken with (P := is_probe); [ | apply testSecret_only_probes].
  intros [ | | | | | | ]; simpl; intros Hc w';
    solve [contradiction | reflexivity].
Qed.

(** On the reference world [setSecret] applies the password of the token's
    version when that password is a string and the cluster can be
    reached. *)
Lemma setSecret_applies (config : Config) (token : string) (w : World)
    (v : Version) (j : json) (s : string) :
  secret_name w = secretsmanager_name config ->
  lookup token (versions w) = Some v ->
  parsed (Some (content v)) = Some j ->
  prop j "password" = Some (JStr s) ->
  available (target w) = true ->
  cluster_id (target w) = "phat-cluster" ->
  let r := run aws (setSecret config token) w in
  world r = with_password w s /\ result r = Resolved tt.
Proof.
  intros Hname Htoken Hcontent Hprop Havailable Hcluster.
  assert (Hj : j <> JNull) by (intros H; subst j; discriminate Hprop).
  unfold setSecret. simpl. unfold get_secret_value.
  rewrite Hname, String.eqb_refl. simpl. rewrite Htoken. simpl.
  destruct (content v) as [d | u]; simpl in Hcontent;
    [ | discriminate Hcontent].
  inversion Hcontent as [Hd]. clear Hcontent. simpl. rewrite Hd.
  rewrite (get_prop_value j "password" Hj). simpl.
  rewrite Hprop. unfold modify_db_cluster.
  rewrite Havailable, Hcluster. simpl.
  unfold with_password. rewrite Havailable, Hcluster.
  destruct (create_connection _ _ _ _ _); simpl; split; reflexivity.
Qed.

(** X20.  The round trip on the reference world.  With one CURRENT version
    [c] that lists AWSCURRENT first and carries an object payload, a token
    that names no version yet, a generator that delivers and a reachable
    cluster phat-cluster: createSecret, setSecret, testSecret and
    finishSecret, run in that order for the token, all return normally;
    afterwards the token's version is the one CURRENT version, [c] is the
    one PREVIOUS version with its content unchanged, no version holds
    AWSPENDING, the database has the generated password, and the payload
    of the token's version is the text [JSON.stringify] prints of what
    [JSON.parse] read of the old payload, with the generated password
    assigned. *)
Theorem rotation_round_trip (config : Config) (w : World) (token c : string)
    (vc : Version) (fields : list (string * document)) (generated : string)
    (later : list string) :
  secret_name w = secretsmanager_name config ->
  NoDup (map fst (versions w)) ->
  holders "AWSCURRENT" (versions w) = [c] ->
  lookup c (versions w) = Some vc ->
  hd_error (stages vc) = Some "AWSCURRENT" ->
  content vc = Stringified (DObj fields) ->
  lookup token (versions w) = None ->
  random w = generated :: later ->
  available (target w) = true ->
  cluster_id (target w) = "phat-cluster" ->
  let r1 := run aws (createSecret config token) w in
  let r2 := run aws (setSecret config token) (world r1) in
  let r3 := run aws (testSecret config token) (world r2) in
  let r4 := run aws (finishSecret config token) (world r3) in
  (fulfilled_by (result r1) && fulfilled_by (result r2)
   && fulfilled_by (result r3) && fulfilled_by (result r4) = true)
  /\ holders "AWSCURRENT" (versions (world r4)) = [token]
  /\ holders "AWSPREVIOUS" (versions (world r4)) = [c]
  /\ holders "AWSPENDING" (versions (world r4)) = []
  /\ (exists v,
         lookup token (versions (world r4)) = Some v
         /\ content v
            = JSON_stringify
                (assign (read (DObj fields)) "password" (JStr generated)))
  /\ (exists v,
         lookup c (versions (world r4)) = Some v
         /\ content v = content vc)
  /\ db_password (target (world r4)) = generated.
Proof.
  intros Hname Hnodup Hcur Hc Hhd Hcontent Htoken Hrandom Havailable
    Hcluster r1 r2 r3 r4.
  set (j := read (DObj fields)).
  assert (Hparsed : parsed (Some (content vc)) = Some j)
    by (rewrite Hcontent; reflexivity).
  assert (Hj : j <> JNull) by discriminate.
  set (pending :=
         {| content := JSON_stringify (assign j "password" (JStr generated));
            stages := ["AWSPENDING"] |}).
  set (vs1 := detach "AWSPENDING" (versions w) ++ [(token, pending)]).
  (* createSecret *)
  assert (H1 : world r1
               = {| secret_name := secret_name w; versions := vs1;
                    random := later; target := target w |})
    by (apply (createSecret_absent config w token c [] vc j generated later);
        assumption).
  assert (Hr1 : fulfilled_by (result r1) = true).
  { unfold r1.
    rewrite (createSecret_absent_result config w token c [] vc j generated
               later); auto. }
  assert (Hpending : lookup token vs1 = Some pending).
  { unfold vs1. rewrite lookup_app_missing.
    - simpl. rewrite String.eqb_refl. reflexivity.
    - rewrite lookup_detach, Htoken. reflexivity. }
  (* setSecret *)
  destruct (setSecret_applies config token (world r1) pending
              (read (print (assign j "password" (JStr generated))))
              generated)
    as [H2 Hr2].
  { rewrite H1. exact Hname. }
  { rewrite H1. exact Hpending. }
  { reflexivity. }
  { unfold j. rewrite read_object.
    change (assign (JObj (properties fields [])) "password" (JStr generated))
      with (JObj (set_field "password" (JStr generated)
                    (properties fields []))).
    rewrite prop_read_print
      by (apply NoDup_set_field, NoDup_properties; constructor).
    rewrite lookup_set_field_same. reflexivity. }
  { rewrite H1. exact Havailable. }
  { rewrite H1. exact Hcluster. }
  fold r2 in H2, Hr2.
  (* testSecret *)
  assert (H3 : world r3 = world r2) by apply testSecret_fixed.
  assert (Hr3 : result r3 = Resolved tt) by apply testSecret_never_rejected.
  (* the store before finishSecret *)
  assert (Hname3 : secret_name (world r3) = secretsmanager_name config)
    by (rewrite H3, H2, H1; exact Hname).
  assert (Hversions3 : versions (world r3) = vs1)
    by (rewrite H3, H2, H1; reflexivity).
  assert (Hne : c <> token) by (intros Heq; subst c; congruence).
  assert (Hcur3 : holders "AWSCURRENT" (versions (world r3)) = [c]).
  { rewrite Hversions3. unfold vs1. rewrite holders_app.
    rewrite holders_detach_other by discriminate. rewrite Hcur. reflexivity. }
  assert (Hpending3 : holders "AWSPENDING" (versions (world r3)) = [token]).
  { rewrite Hversions3. unfold vs1.
    rewrite holders_app, holders_detach_same. reflexivity. }
  assert (Hin3 : In (c, remove_stage "AWSPENDING" vc) (versions (world r3))).
  { rewrite Hversions3. unfold vs1. apply in_or_app. left.
    unfold detach. apply in_map_iff. exists (c, vc).
    split; [reflexivity | apply lookup_Some_In; exact Hc]. }
  assert (Hhd3 : hd_error (stages (remove_stage "AWSPENDING" vc))
                 = Some "AWSCURRENT").
  { simpl. destruct (stages vc) as [ | x l]; [discriminate | ].
    inversion Hhd; subst x. reflexivity. }
  assert (Hids3 : map fst (versions (world r3))
                  = map fst (versions w) ++ [token]).
  { rewrite Hversions3. unfold vs1. rewrite map_app, ids_detach. reflexivity. }
  assert (Htoken3 : In token (map fst (versions (world r3)))).
  { rewrite Hids3. apply in_or_app. right. left. reflexivity. }
  assert (Hnodup3 : NoDup (map fst (versions (world r3)))).
  { rewrite Hids3. apply NoDup_app.
    - exact Hnodup.
    - repeat constructor. intros [].
    - intros a Ha [Heq | []]. subst a.
      apply (lookup_None_ids token (versions w)); assumption. }
  assert (Hc3 : In c (map fst (versions (world r3)))).
  { apply (holders_ids "AWSCURRENT"). rewrite Hcur3. left. reflexivity. }
  (* finishSecret *)
  assert (Hr4 : result r4 = Resolved tt)
    by (apply (finishSecret_resolves config (world r3) token c
                 (remove_stage "AWSPENDING" vc)); assumption).
  destruct (finishSecret_success config (world r3) token c Hname3 Hcur3 Hne
              Hr4) as [_ [H4 _]].
  fold r4 in H4. clearbody r1 r2 r3 r4.
  split.
  { rewrite Hr1, Hr2, Hr3, Hr4. reflexivity. }
  rewrite H4. simpl.
  split.
  { rewrite holders_move_other by discriminate.
    rewrite holders_move by assumption. simpl.
    destruct (String.eqb_spec token c); [congruence | reflexivity]. }
  split.
  { apply holders_move; rewrite ?ids_move; assumption. }
  split.
  { rewrite !holders_move_other by discriminate. rewrite Hpending3. simpl.
    rewrite String.eqb_refl. reflexivity. }
  split.
  { rewrite Hversions3.
    destruct (lookup_move_content "AWSCURRENT" token token vs1 pending
                Hpending) as [v1' [Hv1 Hcontent1]].
    destruct (lookup_move_content "AWSPREVIOUS" c token _ v1' Hv1)
      as [v2' [Hv2 Hcontent2]].
    exists v2'. split; [exact Hv2 | ]. rewrite Hcontent2, Hcontent1.
    reflexivity. }
  split.
  { rewrite Hversions3.
    assert (Hc1 : lookup c vs1 = Some (remove_stage "AWSPENDING" vc)).
    { unfold vs1. apply lookup_app_found.
      rewrite lookup_detach, Hc. reflexivity. }
    destruct (lookup_move_content "AWSCURRENT" token c vs1 _ Hc1)
      as [v1' [Hv1 Hcontent1]].
    destruct (lookup_move_content "AWSPREVIOUS" c c _ v1' Hv1)
      as [v2' [Hv2 Hcontent2]].
    exists v2'. split; [exact Hv2 | ]. rewrite Hcontent2, Hcontent1.
    reflexivity. }
  rewrite H3, H2. reflexivity.
Qed.

Lemma rotation_round_trip_witness :
  let r1 := run aws (createSecret db_cred "t2") world0 in
  let r2 := run aws (setSecret db_cred "t2") (world r1) in
  let r3 := run aws (testSecret db_cred "t2") (world r2) in
  let r4 := run aws (finishSecret db_cred "t2") (world r3) in
  (fulfilled_by (result r1) && fulfilled_by (result r2)
   && fulfilled_by (result r3) && fulfilled_by (result r4) = true)
  /\ holders "AWSCURRENT" (versions (world r4)) = ["t2"]
  /\ holders "AWSPREVIOUS" (versions (world r4)) = ["v1"]
  /\ holders "AWSPENDING" (versions (world r4)) = []
  /\ (exists v,
         lookup "t2" (versions (world r4)) = Some v
         /\ content v = Stringified (payload "new1"))
  /\ (exists v,
         lookup "v1" (versions (world r4)) = Some v
         /\ content v = content v1)
  /\ db_password (target (world r4)) = "new1".
Proof.
  apply (rotation_round_trip db_cred world0 "t2" "v1" v1
           [("username", DStr "app"); ("password", DStr "old");
            ("host", DStr "h"); ("port", DNum 3306)] "new1" ["new2"]).
  - reflexivity.
  - simpl. repeat constructor; simpl; intuition discriminate.
  - reflexivity.
  - reflexivity.
  - reflexivity.
  - reflexivity.
  - reflexivity.
  - reflexivity.
  - reflexivity.
  - reflexivity.
Defined.





Lemma curretVersion_of_absent (entries : list (string * list string)) :
  (forall k value, In (k, value) entries ->
                   first_is value "AWSCURRENT" = false) ->
  curretVersion_of entries = None.
Proof.
  induction entries as [ | [k0 value0] l IH] using rev_ind;
    [reflexivity | ].
  intros Hall. rewrite curretVersion_of_snoc.
  rewrite (Hall k0 value0) by (apply in_or_app; right; left; reflexivity).
  apply IH. intros k value Hin. apply (Hall k value).
  apply in_or_app. left. exact Hin.
Qed.

(** X23.  [finishSecret] without a CURRENT version on the reference store:
    when no version holds AWSCURRENT and the token names a version, the
    label move is sent without RemoveFromVersionId, the store accepts it,
    and the token's version becomes the one CURRENT version.  It gives up
    the label it had, a version holding one label at most; every other
    version keeps its labels. *)
Theorem finishSecret_attaches_unheld_current (config : Config) (w : World)
    (token : string) :
  secret_name w = secretsmanager_name config ->
  NoDup (map fst (versions w)) ->
  holders "AWSCURRENT" (versions w) = [] ->
  In token (map fst (versions w)) ->
  let r := run aws (finishSecret config token) w in
  result r = Resolved tt
  /\ map call (calls r)
     = [DescribeSecret (secretsmanager_name config);
        UpdateSecretVersionStage (secretsmanager_name config) "AWSCURRENT"
          token None;
        DescribeSecret (secretsmanager_name config)]
  /\ holders "AWSCURRENT" (versions (world r)) = [token]
  /\ forall s, s <> "AWSCURRENT" ->
               holders s (versions (world r))
               = filter (fun k => negb (String.eqb k token))
                   (holders s (versions w)).
Proof.
  intros Hname Hnodup Hcur Htoken r.
  assert (Hloop : curretVersion_of
                    (map (fun e => (fst e, stages (snd e)))
                       (filter (fun e => match stages (snd e) with
                                         | [] => false
                                         | _ :: _ => true
                                         end) (versions w))) = None).
  { apply curretVersion_of_absent. intros k value Hin.
    apply in_map_iff in Hin. destruct Hin as [[k' v] [Heq Hin]].
    simpl in Heq. inversion Heq; subst. apply filter_In in Hin.
    destruct Hin as [Hin _].
    destruct (first_is (stages v) "AWSCURRENT") eqn:Hfirst; [ | reflexivity].
    exfalso.
    assert (Hholder : In k (holders "AWSCURRENT" (versions w))).
    { unfold holders. apply in_map_iff. exists (k, v).
      split; [reflexivity | ]. apply filter_In.
      split; [exact Hin | apply first_is_has_stage; exact Hfirst]. }
    rewrite Hcur in Hholder. exact Hholder. }
  assert (Hr : r = run aws (finishSecret config token) w) by reflexivity.
  clearbody r.
  unfold finishSecret in Hr. simpl in Hr. unfold describe_secret in Hr.
  rewrite Hname, String.eqb_refl in Hr. simpl in Hr.
  rewrite Hloop in Hr. unfold update_secret_version_stage in Hr.
  rewrite Hname, String.eqb_refl, Hcur in Hr. simpl in Hr.
  apply mem_In in Htoken. rewrite Htoken in Hr. simpl in Hr.
  unfold describe_secret in Hr. simpl in Hr.
  rewrite Hname, String.eqb_refl in Hr. simpl in Hr.
  apply mem_In in Htoken.
  subst r. simpl. split; [reflexivity | split; [reflexivity | split]].
  - apply holders_attach_free; assumption.
  - intros s Hs. apply holders_attach_other. exact Hs.
Qed.

Lemma finishSecret_attaches_unheld_current_witness :
  let r := run aws (finishSecret db_cred "t2") world_no_current in
  result r = Resolved tt
  /\ map call (calls r)
     = [DescribeSecret "db-cred";
        UpdateSecretVersionStage "db-cred" "AWSCURRENT" "t2" None;
        DescribeSecret "db-cred"]
  /\ holders "AWSCURRENT" (versions (world r)) = ["t2"]
  /\ forall s, s <> "AWSCURRENT" ->
               holders s (versions (world r))
               = filter (fun k => negb (String.eqb k "t2"))
                   (holders s (versions world_no_current)).
Proof.
  apply (finishSecret_attaches_unheld_current db_cred world_no_current "t2").
  - reflexivity.
  - simpl. repeat constructor; simpl; intuition discriminate.
  - reflexivity.
  - simpl. right. left. reflexivity.
Defined.
